(** * HarAdapter: replaying recorded HTTP traffic

    A shallow embedding of [spoofbot/adapter/har.py] and the properties of
    its request matcher and of [HarAdapter.send].

    - The matcher works on two kinds of mapping. The headers of a
      [PreparedRequest] are a [CaseInsensitiveDict] of [requests]: it keeps
      the names as they were written and looks them up ignoring case. The
      decoded cookies are plain dicts. Both are association lists in
      insertion order; [Mapping] is the part of the mapping protocol the
      matcher uses, with one instance for each.
    - [self._log.debug] is a writer effect: every function that logs returns
      its value together with the records it emitted, one constructor per
      call site.
    - [send] threads the adapter (the entry list is its only mutable part)
      and either returns a response or raises. *)

From Stdlib Require Import Ascii String Lia.
From Stdlib.Strings Require Byte.
From stdpp Require Import base list strings.

Set Default Proof Using "Type".

Local Open Scope string_scope.
Local Open Scope list_scope.

(** ** Python values and mappings *)

(** What a decoded cookie holds under a name: a [str] or [None]. *)
Inductive pyval :=
| PyNone
| PyStr (s : string).

Global Instance pyval_eq_dec : EqDecision pyval.
Proof. solve_decision. Defined.

(** [str(value)], as an f-string field renders it. *)
Definition str_of_pyval (v : pyval) : string :=
  match v with
  | PyNone => "None"
  | PyStr s => s
  end.

(** [c.lower()] on one character; only the letters [A] to [Z] of ASCII
    change, which is all a header name can hold. *)
Definition lower_ascii (c : ascii) : ascii :=
  let n := nat_of_ascii c in
  if (65 <=? n)%nat && (n <=? 90)%nat then ascii_of_nat (n + 32) else c.

(** [s.lower()] *)
Fixpoint lower (s : string) : string :=
  match s with
  | EmptyString => EmptyString
  | String c s' => String (lower_ascii c) (lower s')
  end.

Module PyDict.

(** *** Association lists looked up modulo a function on keys *)

Section Keyed.

Context {V : Type}.
Variable norm : string → string.

(** Some stored key equals [key] once both are normalised. *)
Definition contains_by (key : string) (d : list (string * V)) : bool :=
  bool_decide (norm key ∈ norm <$> d.*1).

(** The value of the first such key; [None] stands for [KeyError]. *)
Fixpoint getitem_by (d : list (string * V)) (key : string) : option V :=
  match d with
  | [] => None
  | (k, v) :: d' =>
      if bool_decide (norm k = norm key) then Some v else getitem_by d' key
  end.

(** No two stored keys are equal once normalised. *)
Definition wf_by (d : list (string * V)) : Prop := NoDup (norm <$> d.*1).

End Keyed.

(** *** The two kinds of mapping *)

(** A plain [dict] with [str] keys: what the cookie decoder returns. *)
Definition dict := list (string * pyval).

(** A [CaseInsensitiveDict] of [requests]: the items as they were set, in
    insertion order. *)
Record CaseInsensitiveDict := CIDict {
  items : list (string * string)
}.

(** The operations of a mapping that the matcher uses: [d.keys()],
    [key in d], [d[key]] (with [None] for [KeyError]) and [str(value)] for
    the log. [wf] is the representation invariant of the class. *)
Class Mapping (M V : Type) := {
  keys : M → list string;
  contains : string → M → bool;
  getitem : M → string → option V;
  str_of : V → string;
  wf : M → Prop
}.
Global Hint Mode Mapping ! - : typeclass_instances.

(** [dict]: keys are compared as they are. *)
Global Instance dict_mapping : Mapping dict pyval := {|
  keys := λ d, d.*1;
  contains := contains_by id;
  getitem := getitem_by id;
  str_of := str_of_pyval;
  wf := wf_by id
|}.

(** [CaseInsensitiveDict]: [__iter__] gives the names as written;
    [__getitem__], and with it [__contains__] and [get], lower the key. *)
Global Instance ci_mapping : Mapping CaseInsensitiveDict string := {|
  keys := λ h, (items h).*1;
  contains := λ key h, contains_by lower key (items h);
  getitem := λ h, getitem_by lower (items h);
  str_of := id;
  wf := λ h, wf_by lower (items h)
|}.

(** [d.get(key, default)] *)
Definition get {M V} `{Mapping M V} (d : M) (key : string) (default : V) : V :=
  from_option id default (getitem d key).

(** [d[key] = value] on a [dict]: overwrite in place, or append a new key. *)
Fixpoint setitem (d : dict) (key : string) (value : pyval) : dict :=
  match d with
  | [] => [(key, value)]
  | (k, v) :: d' =>
      if bool_decide (k = key) then (k, value) :: d'
      else (k, v) :: setitem d' key value
  end.

(** [dict(headers)]: the plain dict with the same items. *)
Definition dict_of (h : CaseInsensitiveDict) : dict :=
  prod_map id PyStr <$> items h.

(** [a.keys() == b.keys()] on dicts. Key views are set-like: CPython
    compares the two sizes and then tests every key of [a] for membership
    in [b]; the positions of the keys play no role. *)
Definition keys_view_eq (a b : dict) : bool :=
  bool_decide (length a = length b) && forallb (λ k, contains k b) (keys a).

End PyDict.
Import PyDict.
(** ** urllib3's [Url] *)

Record Url := mkUrl {
  scheme : option string;
  auth : option string;
  host : option string;
  port : option nat;
  path : option string;
  query : option string;
  fragment : option string
}.

(** [Url.hostname] is an alias of [host]. *)
Definition hostname (u : Url) : option string := host u.

(** An f-string field: [None] is rendered as the text [None]. *)
Definition fmt (o : option string) : string := from_option id "None" o.

(** [s.startswith('/')]. *)
Definition startswith_slash (s : string) : bool :=
  match s with
  | String c _ => bool_decide (c = "/"%char)
  | EmptyString => false
  end.

(** [name[:-1]]. *)
Fixpoint but_last (s : string) : string :=
  match s with
  | EmptyString => EmptyString
  | String c EmptyString => EmptyString
  | String c s' => String c (but_last s')
  end.

(** ** Requests *)

(** [PreparedRequest.body] is [None], a [str] or [bytes]. *)
Inductive Body :=
| BNone
| BStr (s : string)
| BBytes (b : list Byte.byte).

Global Instance byte_eq_dec : EqDecision Byte.byte := Byte.byte_eq_dec.

Global Instance Body_eq_dec : EqDecision Body.
Proof. solve_decision. Defined.

(** Truth value of a body in [if cached_request.body:]. *)
Definition truthy (b : Body) : bool :=
  match b with
  | BNone => false
  | BStr s => negb (bool_decide (s = ""))
  | BBytes l => negb (bool_decide (l = []))
  end.

Record PreparedRequest := mkRequest {
  method : string;
  url : string;
  headers : CaseInsensitiveDict;
  body : Body
}.

(** The same request with another body. *)
Definition with_body (r : PreparedRequest) (b : Body) : PreparedRequest :=
  {| method := method r; url := url r; headers := headers r; body := b |}.

(** ** The debug log *)

Inductive LogRecord :=
| Request_matched (indent : nat)
| Deleted_matched_entry (indent : nat)
| Handling_redirection (indent : nat) (target : Url)
| Testing_possible_match_strictly (indent : nat)
| Headers_mismatch (indent : nat)
| Post_data_mismatch (indent : nat) (request_body cached_body : Body)
| Rule (indent : nat)
| Header_order_does_not_match (indent : nat)
| Key_list (indent : nat) (ks : list string)
| Does_not_equal_cached (indent : nat)
| Missing_entries (indent : nat) (name : string)
| Redundant_entries (indent : nat) (name : string)
| Mismatching_entries (indent : nat) (name : string)
| Entry_line (indent : nat) (key : string) (value : option string)
| Does_not_equal_cached_entry (indent : nat) (key : string) (singular : string)
| Cached_value (indent : nat) (key : string) (value : option string).

Definition Log (A : Type) : Type := A * list LogRecord.

Definition ret {A} (a : A) : Log A := (a, []).

Definition bind {A B} (m : Log A) (k : A → Log B) : Log B :=
  let '(a, l1) := m in let '(b, l2) := k a in (b, l1 ++ l2).

Definition debug (r : LogRecord) : Log unit := (tt, [r]).

Notation "'let*' x ':=' m 'in' k" := (bind m (λ x, k))
  (at level 10, x name, m at level 100, k at level 200, only parsing).
Notation "m >> k" := (bind m (λ _, k))
  (at level 100, k at level 200, right associativity, only parsing).

(** [for key in ks: body key]. *)
Fixpoint for_each {A} (ks : list A) (body : A → Log unit) : Log unit :=
  match ks with
  | [] => ret tt
  | k :: ks' => body k >> for_each ks' body
  end.

(** ** The request matcher *)

Section Matcher.

(** [spoofbot.util.cookie_header_to_dict] *)
Variable cookie_header_to_dict : string → dict.

Definition _do_keys_match (request_headers cached_headers : CaseInsensitiveDict)
    (indent_level : nat) : Log bool :=
  let indent := indent_level in
  if negb (keys_view_eq (dict_of request_headers) (dict_of cached_headers)) then
    debug (Header_order_does_not_match indent) >>
    debug (Key_list indent (keys (dict_of request_headers))) >>
    debug (Does_not_equal_cached indent) >>
    debug (Key_list indent (keys (dict_of cached_headers))) >>
    ret false
  else ret true.

Section AnyMapping.

(** [_are_dicts_same] is called on two header mappings and on two cookie
    dicts; it only uses what [Mapping] offers. *)
Context {M V : Type} `{Mapping M V} `{EqDecision V}.

(** First loop of [_are_dicts_same]: one pass over the cached keys fills
    [missing_keys] and [mismatching_keys]. *)
Definition scan_cached (request_dict cached_dict : M)
    : list string * list string :=
  fold_left
    (λ '(missing_keys, mismatching_keys) key,
       if negb (contains key request_dict)
       then (missing_keys ++ [key], mismatching_keys)
       else if negb (bool_decide (getitem request_dict key = getitem cached_dict key))
            then (missing_keys, mismatching_keys ++ [key])
            else (missing_keys, mismatching_keys))
    (keys cached_dict) ([], []).

(** Second loop: [redundant_keys]. *)
Definition scan_request (request_dict cached_dict : M) : list string :=
  fold_left
    (λ redundant_keys key,
       if negb (contains key cached_dict)
       then redundant_keys ++ [key] else redundant_keys)
    (keys request_dict) [].

(** ['{d[key]}'] in a log line. *)
Definition shown (d : M) (key : string) : option string :=
  str_of (M := M) <$> getitem d key.

Definition _are_dicts_same (request_dict cached_dict : M)
    (indent_level : nat) (name : string) : Log bool :=
  let indent := indent_level in
  let '(missing_keys, mismatching_keys) := scan_cached request_dict cached_dict in
  let redundant_keys := scan_request request_dict cached_dict in
  let verdict := true in
  let* verdict :=
    (if bool_decide (0 < length missing_keys) then
       debug (Missing_entries indent name) >>
       for_each missing_keys
         (λ key, debug (Entry_line indent key (shown cached_dict key))) >>
       ret false
     else ret verdict) in
  let* verdict :=
    (if bool_decide (0 < length redundant_keys) then
       debug (Redundant_entries indent name) >>
       for_each redundant_keys
         (λ key, debug (Entry_line indent key (shown request_dict key))) >>
       ret false
     else ret verdict) in
  let* verdict :=
    (if bool_decide (0 < length mismatching_keys) then
       debug (Mismatching_entries indent name) >>
       for_each mismatching_keys
         (λ key,
            debug (Entry_line indent key (shown request_dict key)) >>
            debug (Does_not_equal_cached_entry indent key (but_last name)) >>
            debug (Cached_value indent key (shown cached_dict key))) >>
       ret false
     else ret verdict) in
  ret verdict.

End AnyMapping.

Definition _do_headers_match (request_headers cached_headers : CaseInsensitiveDict)
    (indent_level : nat) : Log bool :=
  debug (Rule indent_level) >>
  let success := true in
  let* r := _do_keys_match request_headers cached_headers indent_level in
  let success := success && r in
  let* r := _are_dicts_same request_headers cached_headers indent_level "headers" in
  let success := success && r in
  let* success :=
    (if contains "Cookie" cached_headers || contains "Cookie" request_headers then
       let request_cookies := cookie_header_to_dict (get request_headers "Cookie" "") in
       let cached_cookies := cookie_header_to_dict (get cached_headers "Cookie" "") in
       let* r := _are_dicts_same request_cookies cached_cookies indent_level "cookies" in
       ret (success && r)
     else ret success) in
  ret success.

Definition _match_requests (_strict_matching : bool)
    (request cached_request : PreparedRequest) : Log bool :=
  let indent := String.length (method request) in
  if bool_decide (method cached_request = method request)
     && bool_decide (url cached_request = url request) then
    (if _strict_matching then
       debug (Testing_possible_match_strictly indent) >>
       let* ok := _do_headers_match (headers request) (headers cached_request)
              (String.length (method request)) in
       if negb ok then
         debug (Headers_mismatch indent) >> ret false
       else if truthy (body cached_request) then
         if negb (bool_decide (body cached_request = body request)) then
           debug (Post_data_mismatch indent (body request) (body cached_request)) >>
           ret false
         else ret true
       else ret true
     else ret true)
  else ret false.

(** *** Closed forms used to state what the matcher computes *)

Section AnyMappingClosed.

Context {M V : Type} `{Mapping M V} `{EqDecision V}.

(** The three key lists of [_are_dicts_same], as filters. *)
Definition missing (request_dict cached_dict : M) : list string :=
  filter (λ k, contains k request_dict = false) (keys cached_dict).

Definition mismatching (request_dict cached_dict : M) : list string :=
  filter (λ k, contains k request_dict = true
               ∧ getitem request_dict k ≠ getitem cached_dict k)
         (keys cached_dict).

Definition redundant (request_dict cached_dict : M) : list string :=
  filter (λ k, contains k cached_dict = false) (keys request_dict).

(** One block of the report: a heading and the lines of each key, or
    nothing when there is no key. *)
Definition block (heading : LogRecord) (lines : string → list LogRecord)
    (ks : list string) : list LogRecord :=
  match ks with
  | [] => []
  | _ => heading :: (ks ≫= lines)
  end.

Definition report (request_dict cached_dict : M) (indent : nat) (name : string)
    : list LogRecord :=
  block (Missing_entries indent name)
    (λ key, [Entry_line indent key (shown cached_dict key)])
    (missing request_dict cached_dict)
  ++ block (Redundant_entries indent name)
    (λ key, [Entry_line indent key (shown request_dict key)])
    (redundant request_dict cached_dict)
  ++ block (Mismatching_entries indent name)
    (λ key, [Entry_line indent key (shown request_dict key);
             Does_not_equal_cached_entry indent key (but_last name);
             Cached_value indent key (shown cached_dict key)])
    (mismatching request_dict cached_dict).

(** The verdict of [_are_dicts_same]. *)
Definition same (request_dict cached_dict : M) : bool :=
  bool_decide (missing request_dict cached_dict = []
               ∧ redundant request_dict cached_dict = []
               ∧ mismatching request_dict cached_dict = []).

End AnyMappingClosed.

(** The four records [_do_keys_match] writes when it fails. *)
Definition orderings (request_headers cached_headers : CaseInsensitiveDict)
    (indent : nat) : list LogRecord :=
  [Header_order_does_not_match indent;
   Key_list indent (keys request_headers);
   Does_not_equal_cached indent;
   Key_list indent (keys cached_headers)].

(** ['Cookie' in cached_headers or 'Cookie' in request_headers]: either
    side has a cookie header, under whatever capitalisation. *)
Definition has_cookie (request_headers cached_headers : CaseInsensitiveDict) : bool :=
  contains "Cookie" cached_headers || contains "Cookie" request_headers.

(** [cookie_header_to_dict(headers.get('Cookie', ''))] *)
Definition cookies_of (hs : CaseInsensitiveDict) : dict :=
  cookie_header_to_dict (get hs "Cookie" "").

(** The two comparisons of line 88. *)
Definition baseline (request cached_request : PreparedRequest) : bool :=
  bool_decide (method cached_request = method request)
  && bool_decide (url cached_request = url request).

(** What the body test of lines 94-98 lets through. *)
Definition body_ok (request cached_request : PreparedRequest) : bool :=
  negb (truthy (body cached_request))
  || bool_decide (body cached_request = body request).

End Matcher.

(** ** The adapter *)

(** What [send] raises. *)
Inductive Exn :=
| Exception (msg : string).

Definition NoMatchFound : Exn := Exception "No matching entry in HAR found".

Inductive Outcome (R : Type) :=
| Return (r : R)
| Raise (e : Exn).
Arguments Return {R} r.
Arguments Raise {R} e.

(** The functions and types [send] takes from elsewhere: [spoofbot.util]
    ([request_from_entry], [prepare_request], [response_from_entry]),
    [requests] ([build_response]) and [urllib3] ([parse_url]).
    [redirectURL entry] is [entry['response']['redirectURL']]. *)
Class Collaborators := {
  Entry : Type;
  RawRequest : Type;
  RawResponse : Type;
  Response : Type;
  request_from_entry : Entry → RawRequest;
  prepare_request : RawRequest → PreparedRequest;
  response_from_entry : Entry → RawResponse;
  build_response : PreparedRequest → RawResponse → Response;
  redirectURL : Entry → string;
  parse_url : string → Url
}.

Section Adapter.

Variable cookie_header_to_dict : string → dict.
Context `{Collaborators}.

(** [entries] is [self._data['log']['entries']]. *)
Record HarAdapter := mkAdapter {
  entries : list Entry;
  _strict_matching : bool;
  _delete_after_match : bool
}.

(** [HarAdapter(har_data)]: both switches default to [True]. The line the
    constructor writes to the info log is left out. *)
Definition init (har_entries : list Entry) : HarAdapter :=
  {| entries := har_entries; _strict_matching := true; _delete_after_match := true |}.

(** [del self._data['log']['entries'][i]]. The loop only deletes at the
    position of the entry it is visiting, which is always in range. *)
Definition del_entry (self : HarAdapter) (i : nat) : HarAdapter :=
  {| entries := delete i (entries self);
     _strict_matching := _strict_matching self;
     _delete_after_match := _delete_after_match self |}.

(** The request the adapter compares against for one entry. *)
Definition cached_request_of (entry : Entry) : PreparedRequest :=
  prepare_request (request_from_entry entry).

(** [self._match_requests(request, cached_request)] *)
Definition match_entry (self : HarAdapter) (request : PreparedRequest)
    (entry : Entry) : Log bool :=
  _match_requests cookie_header_to_dict (_strict_matching self) request
    (cached_request_of entry).

(** The text handed to [parse_url] when [redirectURL] is not empty. *)
Definition redirect_target (request : PreparedRequest) (redirect : string) : string :=
  if startswith_slash redirect then
    let url := parse_url (url request) in
    (fmt (scheme url) +:+ "://" +:+ fmt (hostname url) +:+ redirect)%string
  else redirect.

(** The body of the [for i, entry in enumerate(self.entries)] loop, from
    position [i] on; [rest] is what is left to visit. *)
Fixpoint send_from (self : HarAdapter) (request : PreparedRequest)
    (i : nat) (rest : list Entry) : Log (Outcome Response * HarAdapter) :=
  let indent := String.length (method request) in
  match rest with
  | [] => ret (Raise NoMatchFound, self)
  | entry :: rest' =>
      let* matched := match_entry self request entry in
      if matched then
        debug (Request_matched indent) >>
        let* self :=
          (if _delete_after_match self then
             let self := del_entry self i in
             debug (Deleted_matched_entry indent) >> ret self
           else ret self) in
        (if negb (bool_decide (redirectURL entry = "")) then
           let url := parse_url (redirect_target request (redirectURL entry)) in
           debug (Handling_redirection indent url)
         else ret tt) >>
        let response := build_response request (response_from_entry entry) in
        ret (Return response, self)
      else send_from self request (S i) rest'
  end.

Definition send (self : HarAdapter) (request : PreparedRequest)
    : Log (Outcome Response * HarAdapter) :=
  send_from self request 0 (entries self).

(** *** Vocabulary for the scan *)

(** [entry] is accepted for [request]. *)
Definition accepts (self : HarAdapter) (request : PreparedRequest)
    (entry : Entry) : Prop :=
  fst (match_entry self request entry) = true.

Global Instance accepts_dec (self : HarAdapter) (request : PreparedRequest)
    (entry : Entry) : Decision (accepts self request entry).
Proof. unfold accepts. apply _. Defined.

(** What the scan logs while it visits [es]. *)
Definition attempts (self : HarAdapter) (request : PreparedRequest)
    (es : list Entry) : list LogRecord :=
  es ≫= λ e, snd (match_entry self request e).

(** What [send] logs after a match on [entry]. *)
Definition epilogue (self : HarAdapter) (request : PreparedRequest)
    (entry : Entry) : list LogRecord :=
  let indent := String.length (method request) in
  Request_matched indent
  :: (if _delete_after_match self then [Deleted_matched_entry indent] else [])
  ++ (if bool_decide (redirectURL entry = "") then []
      else [Handling_redirection indent
              (parse_url (redirect_target request (redirectURL entry)))]).

End Adapter.

Arguments entries {_} _.
Arguments _strict_matching {_} _.
Arguments _delete_after_match {_} _.
Arguments mkAdapter {_} _ _ _.

(** ** The rest of the adapter: switches and sessions *)

Section AdapterRest.

Variable cookie_header_to_dict : string → dict.
Context `{Collaborators}.

(** [self.strict_matching = value] *)
Definition set_strict_matching (self : HarAdapter) (value : bool) : HarAdapter :=
  {| entries := entries self;
     _strict_matching := value;
     _delete_after_match := _delete_after_match self |}.

(** [self.delete_after_match = value] *)
Definition set_delete_after_match (self : HarAdapter) (value : bool) : HarAdapter :=
  {| entries := entries self;
     _strict_matching := _strict_matching self;
     _delete_after_match := value |}.

(** A session: one [send] per outgoing request, each on the adapter the
    previous one left. The answers are kept in order; an exception is kept
    in its place and the session goes on. *)
Fixpoint send_all (self : HarAdapter) (requests : list PreparedRequest)
    : list (Outcome Response) * HarAdapter :=
  match requests with
  | [] => ([], self)
  | request :: requests' =>
      let '(outcome, self', _) := send cookie_header_to_dict self request in
      let '(outcomes, self'') := send_all self' requests' in
      (outcome :: outcomes, self'')
  end.

(** Whether a [send] came back with a response. *)
Definition answered (outcome : Outcome Response) : bool :=
  match outcome with
  | Return _ => true
  | Raise _ => false
  end.

End AdapterRest.

(** ** The cookie codec *)

Module CookieCodec.

(** [s.split(sep)] for a one-character separator. *)
Fixpoint split (sep : ascii) (s : string) : list string :=
  match s with
  | EmptyString => [EmptyString]
  | String c s' =>
      if bool_decide (c = sep) then EmptyString :: split sep s'
      else match split sep s' with
           | piece :: pieces => String c piece :: pieces
           | [] => [String c EmptyString]
           end
  end.

(** Drop leading blanks. *)
Fixpoint lstrip (s : string) : string :=
  match s with
  | String c s' => if bool_decide (c = " "%char) then lstrip s' else s
  | EmptyString => EmptyString
  end.

(** Cut a [name=value] pair at its first [=]. *)
Fixpoint pair_of (s : string) : option (string * string) :=
  match s with
  | EmptyString => None
  | String c s' =>
      if bool_decide (c = "="%char) then Some (EmptyString, s')
      else '(name, value) ← pair_of s'; Some (String c name, value)
  end.

(** Modelled from the spec: [cookie_header_to_dict] of [spoofbot.util],
    a module [har.py] imports. The spec gives the grammar it reads:
    semicolon-separated [name=value] pairs, [a=1; b=2] giving the ordered
    mapping [{a: "1", b: "2"}]. A piece without [=] is kept as a name
    without a value ([None]), so that the empty string, which splits into
    one empty piece, gives [{'': None}]. The matcher is stated for every
    decoder; this one serves where a run needs one. *)
Definition cookie_header_to_dict (cookie : string) : dict :=
  fold_left
    (λ d piece,
       match pair_of (lstrip piece) with
       | Some (name, value) => setitem d name (PyStr value)
       | None => setitem d (lstrip piece) PyNone
       end)
    (split ";" cookie) [].

End CookieCodec.

(** ** A concrete capture format, used to run the adapter on examples *)

Module Example.

Record HarEntry := mkEntry {
  entry_request : PreparedRequest;
  entry_status : nat;
  entry_content : string;
  entry_redirectURL : string
}.

(** [scheme://host/path] and nothing else: the part of [parse_url] the
    examples need. *)
Definition parse_simple_url (s : string) : Url :=
  match index 0 "://" s with
  | None =>
      mkUrl None None None None (Some s) None None
  | Some n =>
      let rest := substring (n + 3) (String.length s - (n + 3)) s in
      let '(h, p) :=
        match index 0 "/" rest with
        | None => (rest, None)
        | Some m => (substring 0 m rest,
                     Some (substring m (String.length rest - m) rest))
        end in
      mkUrl (Some (substring 0 n s)) None (Some h) None p None None
  end.

Global Instance collaborators : Collaborators := {|
  Entry := HarEntry;
  RawRequest := PreparedRequest;
  RawResponse := nat * string;
  Response := nat * string;
  request_from_entry := entry_request;
  prepare_request := id;
  response_from_entry := λ e, (entry_status e, entry_content e);
  build_response := λ _ raw, raw;
  redirectURL := entry_redirectURL;
  parse_url := parse_simple_url
|}.

Definition codec := CookieCodec.cookie_header_to_dict.
Definition matches := _match_requests codec.
Definition send := send codec.

(** A form post and the recording of the same post with another body. *)
Definition live_post : PreparedRequest :=
  mkRequest "POST" "https://x/y" (CIDict [("Accept", "*/*")]) (BStr "x=2").
Definition cached_post : PreparedRequest :=
  mkRequest "POST" "https://x/y" (CIDict [("Accept", "*/*")]) (BStr "x=1").

(** Two requests that differ only in the order of their cookies. *)
Definition live_ab : PreparedRequest :=
  mkRequest "GET" "https://x/y"
    (CIDict [("Accept", "*/*"); ("Cookie", "a=1; b=2")]) BNone.
Definition cached_ba : PreparedRequest :=
  mkRequest "GET" "https://x/y"
    (CIDict [("Accept", "*/*"); ("Cookie", "b=2; a=1")]) BNone.

(** A capture of three transactions, two of them for the same request, and
    that request sent live. *)
Definition live_a : PreparedRequest :=
  mkRequest "GET" "https://host.test/a" (CIDict []) BNone.
Definition entry_b : HarEntry :=
  mkEntry (mkRequest "GET" "https://host.test/b" (CIDict []) BNone) 200 "b" "".
Definition entry_a : HarEntry :=
  mkEntry (mkRequest "GET" "https://host.test/a" (CIDict []) BNone) 302 "" "/next".
Definition entry_a_again : HarEntry :=
  mkEntry (mkRequest "GET" "https://host.test/a" (CIDict []) BNone) 302 ""
    "https://other.test/y".
Definition capture : HarAdapter := init [entry_b; entry_a; entry_a_again].

(** A capture with nothing in it, and one with nothing for [live_a]. *)
Definition nothing_captured : HarAdapter := init [].
Definition only_b : HarAdapter := init [entry_b].

(** A live request with a cookie and a recording without any header. *)
Definition live_cookie : PreparedRequest :=
  mkRequest "GET" "https://x/y" (CIDict [("Cookie", "a=1")]) BNone.
Definition cached_bare : PreparedRequest :=
  mkRequest "GET" "https://x/y" (CIDict []) BNone.

(** The same header written in two capitalisations. *)
Definition live_lowercase : PreparedRequest :=
  mkRequest "GET" "https://x/y" (CIDict [("accept", "*/*")]) BNone.
Definition cached_capitalised : PreparedRequest :=
  mkRequest "GET" "https://x/y" (CIDict [("Accept", "*/*")]) BNone.

(** A live request whose cookie header is written in lower case, and a
    recording whose cookie header is capitalised. *)
Definition live_lowercase_cookie : PreparedRequest :=
  mkRequest "GET" "https://x/y" (CIDict [("cookie", "a=1")]) BNone.
Definition cached_cookie : PreparedRequest :=
  mkRequest "GET" "https://x/y" (CIDict [("Cookie", "a=1")]) BNone.

(** Decoded cookies: the same two cookies in two orders, and one cookie. *)
Definition cookies_ab : dict := [("a", PyStr "1"); ("b", PyStr "2")].
Definition cookies_ba : dict := [("b", PyStr "2"); ("a", PyStr "1")].
Definition cookie_a : dict := [("a", PyStr "1")].
Definition no_cookie : dict := [].

End Example.
(** * Properties *)

(** ** Association lists looked up modulo a function on keys *)

Section KeyedFacts.

Context {V : Type}.
Variable norm : string → string.
Implicit Types d a b : list (string * V).

Lemma contains_by_true key d :
  contains_by norm key d = true ↔ norm key ∈ norm <$> d.*1.
Proof. unfold contains_by. by rewrite bool_decide_eq_true. Qed.

Lemma contains_by_false key d :
  contains_by norm key d = false ↔ norm key ∉ norm <$> d.*1.
Proof. unfold contains_by. by rewrite bool_decide_eq_false. Qed.

(** A stored key is found. *)
Lemma contains_by_key key d : key ∈ d.*1 → contains_by norm key d = true.
Proof. intros Hin. apply contains_by_true. by apply list_elem_of_fmap_2. Qed.

(** The lookups only see the normalised key. *)
Lemma contains_by_norm k k' d :
  norm k = norm k' → contains_by norm k d = contains_by norm k' d.
Proof. unfold contains_by. by intros ->. Qed.

Lemma getitem_by_norm k k' d :
  norm k = norm k' → getitem_by norm d k = getitem_by norm d k'.
Proof.
  intros Hk. induction d as [|[k0 v] d IH]; [done |].
  cbn [getitem_by]. by rewrite Hk, IH.
Qed.

Lemma getitem_by_None d key :
  getitem_by norm d key = None ↔ norm key ∉ norm <$> d.*1.
Proof.
  induction d as [|[k v] d IH]; cbn [getitem_by].
  - split; [intros _; apply not_elem_of_nil | done].
  - rewrite !fmap_cons, not_elem_of_cons. cbn [fst].
    destruct (decide (norm k = norm key)) as [Heq|Hne].
    + rewrite bool_decide_eq_true_2 by done. split; [done |].
      intros [Hne _]. by destruct Hne.
    + rewrite bool_decide_eq_false_2 by done. rewrite IH.
      split; [| by intros [_ ?]]. intros Hout. split; [| done].
      intros Heq. by destruct Hne.
Qed.

(** The guard [key in d] makes [d[key]] safe. *)
Lemma getitem_by_is_Some d key :
  is_Some (getitem_by norm d key) ↔ contains_by norm key d = true.
Proof.
  rewrite contains_by_true, <- not_eq_None_Some, getitem_by_None.
  split; [apply dec_stable | auto].
Qed.

(** A value that is found is stored under a key with the same normal form. *)
Lemma getitem_by_elem d key v :
  getitem_by norm d key = Some v → ∃ k, (k, v) ∈ d ∧ norm k = norm key.
Proof.
  induction d as [|[k0 v0] d IH]; cbn [getitem_by]; [done |].
  case_bool_decide as Hk.
  - intros [= ->]. exists k0. split; [by left | done].
  - intros (k & Hin & Heq)%IH. exists k. split; [by right | done].
Qed.

(** In a well-formed list every item is found under its own key. *)
Lemma getitem_by_Some d k v :
  wf_by norm d → (k, v) ∈ d → getitem_by norm d k = Some v.
Proof.
  unfold wf_by. induction d as [|[k0 v0] d IH]; [by intros _ ?%elem_of_nil |].
  rewrite !fmap_cons. cbn [fst getitem_by].
  intros [Hk0 Hnd]%NoDup_cons [[= -> ->]|Hin]%elem_of_cons.
  - by rewrite bool_decide_eq_true_2.
  - rewrite bool_decide_eq_false_2; [by apply IH |].
    intros Heq. destruct Hk0. rewrite Heq.
    apply list_elem_of_fmap_2, list_elem_of_fmap. by exists (k, v).
Qed.

Lemma wf_by_Permutation a b : a ≡ₚ b → wf_by norm a → wf_by norm b.
Proof. unfold wf_by. by intros ->. Qed.

Lemma contains_by_Permutation a b key :
  a ≡ₚ b → contains_by norm key a = contains_by norm key b.
Proof.
  intros Hab. unfold contains_by. apply bool_decide_ext. by rewrite Hab.
Qed.

Lemma getitem_by_Permutation a b key :
  wf_by norm a → a ≡ₚ b → getitem_by norm a key = getitem_by norm b key.
Proof.
  intros Ha Hab. pose proof (wf_by_Permutation _ _ Hab Ha) as Hb.
  destruct (getitem_by norm a key) as [v|] eqn:Hak.
  - apply getitem_by_elem in Hak as (k & Hin & Hk).
    rewrite <- (getitem_by_norm k key) by done.
    symmetry. apply getitem_by_Some; [done |]. by rewrite <- Hab.
  - symmetry. apply getitem_by_None. apply getitem_by_None in Hak.
    by rewrite <- Hab.
Qed.

(** Keys that differ once normalised differ. *)
Lemma wf_by_NoDup_keys d : wf_by norm d → NoDup d.*1.
Proof. apply NoDup_fmap_1. Qed.

Lemma wf_by_NoDup d : wf_by norm d → NoDup d.
Proof. intros Hwf. by eapply NoDup_fmap_1, wf_by_NoDup_keys. Qed.

(** In a well-formed list a key is stored under one spelling only. *)
Lemma wf_by_key_unique d k k' :
  wf_by norm d → k ∈ d.*1 → k' ∈ d.*1 → norm k = norm k' → k = k'.
Proof.
  unfold wf_by. induction d.*1 as [|k0 ks IH]; [by intros _ ?%elem_of_nil |].
  rewrite fmap_cons.
  intros [Hk0 Hnd]%NoDup_cons [->|Hk]%elem_of_cons [->|Hk']%elem_of_cons Heq.
  - done.
  - destruct Hk0. rewrite Heq. by apply list_elem_of_fmap_2.
  - destruct Hk0. rewrite <- Heq. by apply list_elem_of_fmap_2.
  - by apply IH.
Qed.

End KeyedFacts.

(** ** Plain dicts *)

Section DictFacts.

Implicit Types d a b : dict.

Lemma contains_true k d : contains k d = true ↔ k ∈ keys d.
Proof.
  cbn [contains keys dict_mapping]. rewrite contains_by_true.
  by rewrite list_fmap_id.
Qed.


Lemma getitem_None d k : getitem d k = None ↔ k ∉ keys d.
Proof.
  cbn [getitem keys dict_mapping]. rewrite getitem_by_None.
  by rewrite list_fmap_id.
Qed.

Lemma getitem_is_Some d k : is_Some (getitem d k) ↔ k ∈ keys d.
Proof.
  rewrite <- contains_true. apply getitem_by_is_Some.
Qed.

Lemma wf_NoDup_keys d : wf d ↔ NoDup (keys d).
Proof.
  cbn [wf keys dict_mapping]. unfold wf_by. by rewrite list_fmap_id.
Qed.

Lemma getitem_Some d k v : wf d → getitem d k = Some v ↔ (k, v) ∈ d.
Proof.
  intros Hwf. split.
  - intros (k' & Hin & Heq)%getitem_by_elem. unfold id in Heq. by subst.
  - by apply getitem_by_Some.
Qed.

Lemma keys_Permutation a b : a ≡ₚ b → keys a ≡ₚ keys b.
Proof. cbn [keys dict_mapping]. by intros ->. Qed.

Lemma wf_Permutation a b : a ≡ₚ b → wf a → wf b.
Proof. apply wf_by_Permutation. Qed.

Lemma getitem_Permutation a b k : wf a → a ≡ₚ b → getitem a k = getitem b k.
Proof. apply getitem_by_Permutation. Qed.

(** On well-formed dicts the key-view comparison is equality of key sets. *)
Lemma keys_view_eq_true a b :
  wf a → wf b → keys_view_eq a b = true ↔ keys a ≡ₚ keys b.
Proof.
  rewrite !wf_NoDup_keys. unfold keys_view_eq. intros Ha Hb.
  rewrite andb_true_iff, bool_decide_eq_true, forallb_forall.
  split.
  - intros [Hlen Hsub].
    apply submseteq_length_Permutation.
    + apply NoDup_submseteq; [done |]. intros k Hk.
      apply contains_true, Hsub. by apply list_elem_of_In.
    + cbn [keys dict_mapping]. rewrite !length_fmap. lia.
  - intros Hp. split.
    + apply Permutation_length in Hp. cbn [keys dict_mapping] in Hp.
      by rewrite !length_fmap in Hp.
    + intros k Hk. apply contains_true. rewrite <- Hp. by apply list_elem_of_In.
Qed.

(** That comparison does not look at positions. *)
Lemma keys_view_eq_Permutation a b :
  keys a ≡ₚ keys b → keys_view_eq a b = true.
Proof.
  intros Hab. unfold keys_view_eq.
  rewrite andb_true_iff, bool_decide_eq_true, forallb_forall. split.
  - apply Permutation_length in Hab. cbn [keys dict_mapping] in Hab.
    by rewrite !length_fmap in Hab.
  - intros k Hk. apply contains_true. rewrite <- Hab. by apply list_elem_of_In.
Qed.

Lemma keys_view_eq_refl d : keys_view_eq d d = true.
Proof. by apply keys_view_eq_Permutation. Qed.

End DictFacts.

(** ** Header mappings *)

Section HeaderFacts.

Implicit Types h r c : CaseInsensitiveDict.

(** [dict(headers)] has the names of [headers], as written. *)
Lemma keys_dict_of h : keys (dict_of h) = keys h.
Proof.
  unfold dict_of. cbn [keys dict_mapping ci_mapping].
  rewrite <- list_fmap_compose. by apply list_fmap_ext; intros ? [].
Qed.

Lemma wf_dict_of h : wf h → wf (dict_of h).
Proof.
  intros Hwf. apply wf_NoDup_keys. rewrite keys_dict_of.
  exact (wf_by_NoDup_keys lower (items h) Hwf).
Qed.

(** Header lookups ignore the capitalisation of the name asked for. *)
Lemma contains_lower k k' h : lower k = lower k' → contains k h = contains k' h.
Proof. apply contains_by_norm. Qed.

Lemma getitem_lower k k' h : lower k = lower k' → getitem h k = getitem h k'.
Proof. apply getitem_by_norm. Qed.

(** A name is found when some name of the mapping has its lower-case form. *)
Lemma contains_header key h :
  contains key h = true ↔ ∃ k, k ∈ keys h ∧ lower k = lower key.
Proof.
  cbn [contains keys ci_mapping]. rewrite contains_by_true, list_elem_of_fmap.
  split; intros (k & ? & ?); by exists k.
Qed.

Lemma getitem_header_None key h : contains key h = false → getitem h key = None.
Proof.
  cbn [contains getitem ci_mapping].
  by intros Hout%contains_by_false%getitem_by_None.
Qed.

Lemma headers_Permutation_keys r c :
  items r ≡ₚ items c → keys r ≡ₚ keys c.
Proof. cbn [keys ci_mapping]. by intros ->. Qed.

End HeaderFacts.

(** ** The writer *)

Lemma for_each_log {A} (ks : list A) (body : A → Log unit) :
  for_each ks body = (tt, ks ≫= λ k, snd (body k)).
Proof.
  induction ks as [|k ks IH]; [done |].
  cbn [for_each]. rewrite IH, bind_cons. unfold bind.
  by destruct (body k) as [[] l].
Qed.

Lemma filter_eq_nil {A} (P : A → Prop) `{∀ x, Decision (P x)} (l : list A) :
  filter P l = [] ↔ ∀ x, x ∈ l → ¬ P x.
Proof.
  split.
  - intros Hnil x Hx HP. by eapply filter_nil_not_elem_of.
  - intros Hall. induction l as [|x l IH]; [done |].
    rewrite filter_cons_False by (apply Hall; left).
    apply IH. intros y Hy. apply Hall. by right.
Qed.

Lemma filter_all {A} (P : A → Prop) `{∀ x, Decision (P x)} (l : list A) :
  (∀ x, x ∈ l → P x) → filter P l = l.
Proof.
  intros HP. induction l as [|x l IH]; [done |].
  rewrite filter_cons_True by (apply HP; left).
  rewrite IH; [done |]. intros y Hy. apply HP. by right.
Qed.

Lemma block_nil_inv heading lines ks : block heading lines ks = [] → ks = [].
Proof. by destruct ks. Qed.

Lemma elem_of_block r heading lines ks :
  r ∈ block heading lines ks → r = heading ∨ ∃ k, k ∈ ks ∧ r ∈ lines k.
Proof.
  destruct ks as [|k0 ks]; [by intros ?%elem_of_nil |].
  cbn [block]. intros [->|Hin]%elem_of_cons; [by left |].
  right. apply list_elem_of_bind in Hin as (k & Hr & Hk). eauto.
Qed.



(** ** Comparing two mappings *)

Section Comparison.

Context {M V : Type} `{Mapping M V} `{EqDecision V}.
Implicit Types request_dict cached_dict d : M.

Lemma scan_cached_filter request_dict cached_dict :
  scan_cached request_dict cached_dict
  = (missing request_dict cached_dict, mismatching request_dict cached_dict).
Proof.
  unfold scan_cached, missing, mismatching.
  enough (∀ ks acc1 acc2,
    fold_left
      (λ '(missing_keys, mismatching_keys) key,
         if negb (contains key request_dict)
         then (missing_keys ++ [key], mismatching_keys)
         else if negb (bool_decide (getitem request_dict key = getitem cached_dict key))
              then (missing_keys, mismatching_keys ++ [key])
              else (missing_keys, mismatching_keys))
      ks (acc1, acc2)
    = (acc1 ++ filter (λ k, contains k request_dict = false) ks,
       acc2 ++ filter (λ k, contains k request_dict = true
                            ∧ getitem request_dict k ≠ getitem cached_dict k) ks))
    as Hgen by apply (Hgen _ [] []).
  induction ks as [|k ks IH]; intros acc1 acc2.
  - by rewrite !filter_nil, !app_nil_r.
  - cbn [fold_left]. rewrite !filter_cons.
    destruct (contains k request_dict) eqn:Hin; cbn [negb].
    + rewrite (decide_False (P := true = false)) by done.
      destruct (decide (getitem request_dict k = getitem cached_dict k)) as [Heq|Hne].
      * rewrite (bool_decide_eq_true_2 _ Heq). cbn [negb].
        rewrite decide_False by (by intros [_ ?]). apply IH.
      * rewrite (bool_decide_eq_false_2 _ Hne). cbn [negb].
        rewrite decide_True by done. rewrite IH. by rewrite <- app_assoc.
    + rewrite (decide_True (P := false = false)) by done.
      rewrite decide_False by (by intros [? _]).
      rewrite IH. by rewrite <- app_assoc.
Qed.

Lemma scan_request_filter request_dict cached_dict :
  scan_request request_dict cached_dict = redundant request_dict cached_dict.
Proof.
  unfold scan_request, redundant.
  enough (∀ ks acc,
    fold_left
      (λ redundant_keys key,
         if negb (contains key cached_dict)
         then redundant_keys ++ [key] else redundant_keys)
      ks acc
    = acc ++ filter (λ k, contains k cached_dict = false) ks)
    as Hgen by apply (Hgen _ []).
  induction ks as [|k ks IH]; intros acc.
  - by rewrite filter_nil, app_nil_r.
  - cbn [fold_left]. rewrite filter_cons.
    destruct (contains k cached_dict) eqn:Hin; cbn [negb].
    + rewrite decide_False by done. apply IH.
    + rewrite decide_True by done. rewrite IH. by rewrite <- app_assoc.
Qed.

(** What [_are_dicts_same] returns and what it logs. *)
Lemma are_dicts_same_unfold request_dict cached_dict indent name :
  _are_dicts_same request_dict cached_dict indent name
  = (same request_dict cached_dict,
     report request_dict cached_dict indent name).
Proof.
  unfold _are_dicts_same, report, same.
  rewrite scan_cached_filter, scan_request_filter, !for_each_log.
  unfold bind, ret, debug, block.
  destruct (missing request_dict cached_dict) as [|k1 l1],
           (redundant request_dict cached_dict) as [|k2 l2],
           (mismatching request_dict cached_dict) as [|k3 l3];
    cbn [length];
    rewrite ?(bool_decide_eq_false_2 (0 < 0)) by lia;
    rewrite ?(bool_decide_eq_true_2 (0 < S _)) by lia;
    (rewrite (bool_decide_eq_true_2 (_ ∧ _)) by done)
    || (rewrite (bool_decide_eq_false_2 (_ ∧ _)) by (by intros (?&?&?)));
    f_equal; rewrite ?app_nil_r; cbn [app]; rewrite <- ?app_assoc; try done.
Qed.

Lemma same_true request_dict cached_dict :
  same request_dict cached_dict = true ↔
    (∀ k, k ∈ keys cached_dict → contains k request_dict = true)
    ∧ (∀ k, k ∈ keys request_dict → contains k cached_dict = true)
    ∧ (∀ k, k ∈ keys cached_dict →
            getitem request_dict k = getitem cached_dict k).
Proof.
  unfold same, missing, redundant, mismatching.
  rewrite bool_decide_eq_true, !filter_eq_nil.
  split.
  - intros (Hm & Hr & Hv). split_and!.
    + intros k Hk. by apply not_false_iff_true, Hm.
    + intros k Hk. by apply not_false_iff_true, Hr.
    + intros k Hk.
      destruct (decide (getitem request_dict k = getitem cached_dict k)) as [|Hne];
        [done |].
      destruct (Hv k Hk). split; [| done]. by apply not_false_iff_true, Hm.
  - intros (Hm & Hr & Hv). split_and!.
    + intros k Hk Hout. rewrite (Hm k Hk) in Hout. discriminate.
    + intros k Hk Hout. rewrite (Hr k Hk) in Hout. discriminate.
    + intros k Hk [_ Hne]. by apply Hne, Hv.
Qed.

(** A mapping in which every key can be looked up is the same as itself. *)
Lemma same_refl_when d :
  (∀ k, k ∈ keys d → contains k d = true) → same d d = true.
Proof. intros Hk. apply same_true. auto. Qed.

(** A successful comparison logs nothing, and only a successful one. *)
Lemma report_same request_dict cached_dict indent name :
  same request_dict cached_dict = true →
  report request_dict cached_dict indent name = [].
Proof.
  unfold same, report. rewrite bool_decide_eq_true.
  by intros (-> & -> & ->).
Qed.

Lemma report_nil_same request_dict cached_dict indent name :
  report request_dict cached_dict indent name = [] →
  same request_dict cached_dict = true.
Proof.
  unfold report, same.
  intros (Hm%block_nil_inv & (Hr%block_nil_inv & Hv%block_nil_inv)%app_eq_nil)%app_eq_nil.
  by apply bool_decide_eq_true.
Qed.

End Comparison.

(** ** The matcher in closed form *)

Section MatcherFacts.

Variable cookie_header_to_dict : string → dict.
Local Abbreviation cookies_of := (cookies_of cookie_header_to_dict).
Implicit Types request_headers cached_headers : CaseInsensitiveDict.

Lemma same_refl_dict (d : dict) : same d d = true.
Proof. apply same_refl_when. intros k. by apply contains_true. Qed.

Lemma same_refl_headers (h : CaseInsensitiveDict) : same h h = true.
Proof. apply same_refl_when. intros k. apply contains_by_key. Qed.

Lemma do_keys_match_unfold request_headers cached_headers indent :
  _do_keys_match request_headers cached_headers indent
  = (keys_view_eq (dict_of request_headers) (dict_of cached_headers),
     if keys_view_eq (dict_of request_headers) (dict_of cached_headers) then []
     else orderings request_headers cached_headers indent).
Proof.
  unfold _do_keys_match, orderings. rewrite !keys_dict_of.
  by destruct (keys_view_eq _ _).
Qed.

Lemma do_headers_match_unfold request_headers cached_headers indent :
  _do_headers_match cookie_header_to_dict request_headers cached_headers indent
  = (keys_view_eq (dict_of request_headers) (dict_of cached_headers)
     && same request_headers cached_headers
     && (if has_cookie request_headers cached_headers
         then same (cookies_of request_headers) (cookies_of cached_headers)
         else true),
     Rule indent
     :: (if keys_view_eq (dict_of request_headers) (dict_of cached_headers)
         then []
         else orderings request_headers cached_headers indent)
     ++ report request_headers cached_headers indent "headers"
     ++ (if has_cookie request_headers cached_headers
         then report (cookies_of request_headers)
                (cookies_of cached_headers) indent "cookies"
         else [])).
Proof.
  unfold _do_headers_match, has_cookie, cookies_of.
  rewrite do_keys_match_unfold, !are_dicts_same_unfold.
  unfold bind, ret, debug. cbn [andb app].
  destruct (contains "Cookie" cached_headers || contains "Cookie" request_headers);
    f_equal; rewrite ?app_nil_r; try done.
  by rewrite andb_true_r.
Qed.

Lemma baseline_true request cached_request :
  baseline request cached_request = true ↔
    method cached_request = method request ∧ url cached_request = url request.
Proof. unfold baseline. by rewrite andb_true_iff, !bool_decide_eq_true. Qed.

Lemma match_requests_unfold strict request cached_request :
  let indent := String.length (method request) in
  let hm := _do_headers_match cookie_header_to_dict (headers request)
              (headers cached_request) indent in
  _match_requests cookie_header_to_dict strict request cached_request
  = if baseline request cached_request then
      if strict then
        (fst hm && body_ok request cached_request,
         Testing_possible_match_strictly indent :: snd hm
         ++ (if fst hm then
               if body_ok request cached_request then []
               else [Post_data_mismatch indent (body request) (body cached_request)]
             else [Headers_mismatch indent]))
      else (true, [])
    else (false, []).
Proof.
  intros indent hm. unfold _match_requests, body_ok.
  fold (baseline request cached_request). fold indent. fold hm.
  destruct (baseline request cached_request); [| done].
  destruct strict; [| done].
  unfold bind, ret, debug. destruct hm as [[] l]; cbn [negb fst snd andb app].
  - destruct (truthy (body cached_request)); cbn [negb orb].
    + by destruct (bool_decide (body cached_request = body request));
        cbn [negb]; rewrite ?app_nil_r.
    + by rewrite !app_nil_r.
  - done.
Qed.

(** *** What the header-value comparison implies *)

(** Passing it gives both sides the same Cookie text, however the cookie
    header is capitalised on either side. *)
Lemma same_cookie_text request_headers cached_headers :
  same request_headers cached_headers = true →
  get request_headers "Cookie" "" = get cached_headers "Cookie" "".
Proof.
  intros (Hcr & Hrc & Hv)%same_true. unfold get.
  destruct (contains "Cookie" cached_headers) eqn:Hc.
  - apply contains_header in Hc as (k & Hk & Hlow).
    rewrite <- (getitem_lower k "Cookie" request_headers Hlow).
    rewrite <- (getitem_lower k "Cookie" cached_headers Hlow).
    by rewrite (Hv k Hk).
  - assert (contains "Cookie" request_headers = false) as Hr.
    { destruct (contains "Cookie" request_headers) eqn:Hr; [| done].
      apply contains_header in Hr as (k & Hk & Hlow).
      rewrite <- (contains_lower k "Cookie" cached_headers Hlow) in Hc.
      by rewrite (Hrc k Hk) in Hc. }
    by rewrite (getitem_header_None _ _ Hc), (getitem_header_None _ _ Hr).
Qed.


(** ... and as soon as one common name carries two different values. *)
Lemma same_false_value request_headers cached_headers k v1 v2 :
  getitem request_headers k = Some v1 → getitem cached_headers k = Some v2 →
  v1 ≠ v2 →
  same request_headers cached_headers = false.
Proof.
  intros H1 H2 Hne. destruct (same request_headers cached_headers) eqn:Hs; [| done].
  apply same_true in Hs as (_ & _ & Hv).
  pose proof H2 as (k' & Hin & Hlow)%getitem_by_elem.
  assert (k' ∈ keys cached_headers) as Hk'.
  { cbn [keys ci_mapping]. apply list_elem_of_fmap. by exists (k', v2). }
  specialize (Hv k' Hk').
  rewrite (getitem_lower k' k request_headers Hlow) in Hv.
  rewrite (getitem_lower k' k cached_headers Hlow) in Hv.
  congruence.
Qed.

(** The verdict of the header check: the cookie sub-comparison is implied
    by the header-value comparison. *)
Lemma headers_verdict request_headers cached_headers indent :
  fst (_do_headers_match cookie_header_to_dict request_headers cached_headers indent)
  = keys_view_eq (dict_of request_headers) (dict_of cached_headers)
    && same request_headers cached_headers.
Proof.
  rewrite do_headers_match_unfold. cbn [fst].
  destruct (same request_headers cached_headers) eqn:Hs.
  - unfold cookies_of. rewrite (same_cookie_text _ _ Hs), same_refl_dict.
    destruct (has_cookie _ _); by rewrite andb_true_r.
  - by rewrite andb_false_r.
Qed.

Lemma headers_match_needs_same request_headers cached_headers indent :
  same request_headers cached_headers = false →
  fst (_do_headers_match cookie_header_to_dict request_headers cached_headers
         indent) = false.
Proof. intros Hs. by rewrite headers_verdict, Hs, andb_false_r. Qed.

Lemma strict_match_needs_headers live cached :
  fst (_do_headers_match cookie_header_to_dict (headers live) (headers cached)
         (String.length (method live))) = false →
  fst (_match_requests cookie_header_to_dict true live cached) = false.
Proof.
  intros Hh.
  pose proof (match_requests_unfold true live cached) as Hun.
  cbn zeta in Hun. rewrite Hun, Hh.
  by destruct (baseline live cached).
Qed.

(** *** Header mappings holding the same items *)

Lemma same_Permutation_headers request_headers cached_headers :
  wf request_headers → items request_headers ≡ₚ items cached_headers →
  same request_headers cached_headers = true.
Proof.
  intros Hwf Hp. pose proof (headers_Permutation_keys _ _ Hp) as Hk.
  apply same_true. split_and!.
  - intros k Hin. apply contains_by_key. cbn [keys ci_mapping] in *.
    by rewrite Hp.
  - intros k Hin. apply contains_by_key. cbn [keys ci_mapping] in *.
    by rewrite <- Hp.
  - intros k _. by apply getitem_by_Permutation.
Qed.

Lemma keys_view_eq_Permutation_headers request_headers cached_headers :
  items request_headers ≡ₚ items cached_headers →
  keys_view_eq (dict_of request_headers) (dict_of cached_headers) = true.
Proof.
  intros Hp. apply keys_view_eq_Permutation. rewrite !keys_dict_of.
  by apply headers_Permutation_keys.
Qed.

(** Conversely, the same names as written and the same values under them
    are the same items. *)
Lemma same_items_headers request_headers cached_headers :
  wf request_headers → wf cached_headers →
  keys_view_eq (dict_of request_headers) (dict_of cached_headers) = true →
  same request_headers cached_headers = true →
  items request_headers ≡ₚ items cached_headers.
Proof.
  intros Hr Hc Hkeys (_ & _ & Hv)%same_true.
  apply keys_view_eq_true in Hkeys; [| by apply wf_dict_of..].
  rewrite !keys_dict_of in Hkeys.
  assert (∀ a b : CaseInsensitiveDict,
            wf a → wf b → keys a ≡ₚ keys b →
            (∀ k, k ∈ keys b → getitem a k = getitem b k) →
            ∀ k v, (k, v) ∈ items a → (k, v) ∈ items b) as Hincl.
  { intros a b Ha Hb Hk Hval k v Hin.
    assert (k ∈ keys b) as Hkb.
    { rewrite <- Hk. cbn [keys ci_mapping]. apply list_elem_of_fmap.
      by exists (k, v). }
    pose proof (getitem_by_Some lower (items a) k v Ha Hin) as Hget.
    cbn [getitem ci_mapping] in Hval. rewrite (Hval k Hkb) in Hget.
    apply getitem_by_elem in Hget as (k' & Hin' & Hlow).
    assert (k' = k) as ->; [| done].
    apply (wf_by_key_unique lower (items b)); [done | | done | done].
    apply list_elem_of_fmap. by exists (k', v). }
  apply NoDup_Permutation.
  - exact (wf_by_NoDup lower _ Hr).
  - exact (wf_by_NoDup lower _ Hc).
  - intros [k v]. split.
    + by apply Hincl.
    + apply Hincl; [done | done | done |].
      intros k' Hk'. symmetry. apply Hv. by rewrite <- Hkeys.
Qed.

End MatcherFacts.

(** ** The scan of [send] *)

Section AdapterFacts.

Variable cookie_header_to_dict : string → dict.
Context `{Collaborators}.

Local Abbreviation match_entry := (match_entry cookie_header_to_dict).
Local Abbreviation send_from := (send_from cookie_header_to_dict).
Local Abbreviation send := (send cookie_header_to_dict).
Local Abbreviation accepts := (accepts cookie_header_to_dict).
Local Abbreviation attempts := (attempts cookie_header_to_dict).

Implicit Types self : HarAdapter.
Implicit Types request : PreparedRequest.

(** Deleting changes neither switch, so it changes no verdict. *)
Lemma match_entry_del self i request entry :
  match_entry (del_entry self i) request entry = match_entry self request entry.
Proof. done. Qed.

Lemma send_from_miss self request i rest :
  Forall (λ e, ¬ accepts self request e) rest →
  send_from self request i rest
  = (Raise NoMatchFound, self, attempts self request rest).
Proof.
  unfold accepts, attempts. intros Hall. revert i.
  induction Hall as [|e rest He _ IH]; intros i; [done |].
  cbn [send_from]. rewrite bind_cons. unfold bind.
  destruct (match_entry self request e) as [[] l]; [done |].
  by rewrite IH.
Qed.

Lemma send_from_hit self request i before entry after :
  Forall (λ e, ¬ accepts self request e) before →
  accepts self request entry →
  send_from self request i (before ++ entry :: after)
  = (Return (build_response request (response_from_entry entry)),
     if _delete_after_match self then del_entry self (i + length before) else self,
     attempts self request (before ++ [entry]) ++ epilogue self request entry).
Proof.
  unfold accepts, attempts, epilogue. intros Hall Hentry. revert i.
  induction Hall as [|e before He _ IH]; intros i.
  - cbn [app send_from length]. rewrite Nat.add_0_r.
    rewrite bind_cons, app_nil_r. unfold bind, ret, debug.
    destruct (match_entry self request entry) as [[] l]; [| done].
    cbn [snd]. destruct (_delete_after_match self);
      destruct (bool_decide (redirectURL entry = "")); cbn [negb app];
      by rewrite ?app_nil_r.
  - cbn [app send_from length]. rewrite bind_cons. unfold bind.
    specialize (IH (S i)).
    destruct (match_entry self request e) as [[] l]; [done |].
    rewrite IH. cbn [snd]. rewrite <- app_assoc.
    by replace (i + S (length before)) with (S i + length before) by lia.
Qed.

(** Every store either rejects the request throughout or has a first
    entry that accepts it. *)
Lemma first_accepting self request (es : list Entry) :
  Forall (λ e, ¬ accepts self request e) es
  ∨ ∃ before entry after,
      es = before ++ entry :: after
      ∧ Forall (λ e, ¬ accepts self request e) before
      ∧ accepts self request entry.
Proof.
  induction es as [|e es [IH|(before & entry & after & -> & Hb & He)]].
  - by left.
  - destruct (decide (accepts self request e)) as [Hy|Hn].
    + right. by exists [], e, es.
    + left. by constructor.
  - destruct (decide (accepts self request e)) as [Hy|Hn].
    + right. by exists [], e, (before ++ entry :: after).
    + right. exists (e :: before), entry, after. split_and!; [done | | done].
      by constructor.
Qed.

Lemma send_miss self request :
  Forall (λ e, ¬ accepts self request e) (entries self) →
  send self request
  = (Raise NoMatchFound, self, attempts self request (entries self)).
Proof. apply send_from_miss. Qed.

Lemma send_hit self request before entry after :
  entries self = before ++ entry :: after →
  Forall (λ e, ¬ accepts self request e) before →
  accepts self request entry →
  send self request
  = (Return (build_response request (response_from_entry entry)),
     if _delete_after_match self then del_entry self (length before) else self,
     attempts self request (before ++ [entry]) ++ epilogue self request entry).
Proof.
  intros Hes Hb He. unfold send. rewrite Hes.
  by rewrite (send_from_hit self request 0 before entry after Hb He).
Qed.

Lemma del_entry_middle self before entry after :
  entries self = before ++ entry :: after →
  del_entry self (length before)
  = mkAdapter (before ++ after) (_strict_matching self) (_delete_after_match self).
Proof. unfold del_entry. intros ->. by rewrite delete_middle. Qed.

End AdapterFacts.


(** ** Plain dicts holding the same items *)

Section DictComparison.

Implicit Types request_dict cached_dict : dict.

(** Two dicts holding the same pairs are the same whatever the order. *)
Lemma same_Permutation_dict request_dict cached_dict :
  wf request_dict → request_dict ≡ₚ cached_dict →
  same request_dict cached_dict = true.
Proof.
  intros Hwf Hp. pose proof (keys_Permutation _ _ Hp) as Hk.
  apply same_true. split_and!.
  - intros k Hin. apply contains_true. by rewrite Hk.
  - intros k Hin. apply contains_true. by rewrite <- Hk.
  - intros k _. by apply getitem_Permutation.
Qed.

(** Two dicts with the same keys and the same values hold the same items. *)
Lemma same_items_dict request_dict cached_dict :
  wf request_dict → wf cached_dict →
  same request_dict cached_dict = true → request_dict ≡ₚ cached_dict.
Proof.
  intros Hr Hc (Hcr & Hrc & Hv)%same_true.
  apply NoDup_Permutation.
  - exact (wf_by_NoDup id _ Hr).
  - exact (wf_by_NoDup id _ Hc).
  - intros [k v]. rewrite <- !getitem_Some by done. split; intros Hkv.
    + rewrite <- Hv; [done |].
      apply contains_true, Hrc, getitem_is_Some. eauto.
    + rewrite Hv; [done |]. apply getitem_is_Some. eauto.
Qed.

End DictComparison.

(** * The matcher: strict and loose mode *)

Section MatcherClaims.

Variable cookie_header_to_dict : string → dict.
Local Abbreviation _match_requests := (_match_requests cookie_header_to_dict).
Local Abbreviation _do_headers_match := (_do_headers_match cookie_header_to_dict).

Implicit Types live cached : PreparedRequest.
Implicit Types request_headers cached_headers : CaseInsensitiveDict.

(** Strict matching accepts any reordering of the cached headers: the
    key check compares key views, the value check looks names up, and the
    Cookie text is the same on both sides. *)
Lemma strict_match_reordered_headers live cached :
  method cached = method live → url cached = url live →
  wf (headers live) → items (headers live) ≡ₚ items (headers cached) →
  body cached = body live →
  _match_requests true live cached
  = (true, [Testing_possible_match_strictly (String.length (method live));
            Rule (String.length (method live))]).
Proof.
  intros Hm Hu Hwf Hp Hb.
  pose proof (match_requests_unfold cookie_header_to_dict true live cached) as Hun.
  cbn zeta in Hun. rewrite Hun. clear Hun.
  rewrite (proj2 (baseline_true live cached)) by done.
  pose proof (same_Permutation_headers _ _ Hwf Hp) as Hs.
  rewrite do_headers_match_unfold. cbn [fst snd].
  rewrite (keys_view_eq_Permutation_headers _ _ Hp), Hs.
  rewrite (report_same _ _ _ _ Hs).
  unfold cookies_of. rewrite (same_cookie_text _ _ Hs).
  rewrite same_refl_dict, (report_same _ _ _ _ (same_refl_dict _)).
  unfold body_ok. rewrite Hb, bool_decide_eq_true_2 by done.
  rewrite orb_true_r. cbn. by destruct (has_cookie _ _).
Qed.

(** C1 (not what the code does). The claim: under strict mode two header
    sequences holding the same name/value pairs in a different order fail to
    match, and the two orderings are logged. On the code, a live request
    whose headers are [User-Agent, Accept] is matched strictly against a
    cached one whose headers are [Accept, User-Agent]: the two key sequences
    differ, yet [_do_keys_match] answers [True] without logging anything,
    and [_match_requests] answers [True]. *)
Theorem C1_strict_match_accepts_reordered_headers :
  let live := mkRequest "GET" "https://x/y"
                (CIDict [("User-Agent", "bot"); ("Accept", "*/*")]) BNone in
  let cached := mkRequest "GET" "https://x/y"
                  (CIDict [("Accept", "*/*"); ("User-Agent", "bot")]) BNone in
  keys (headers live) ≠ keys (headers cached)
  ∧ items (headers live) ≡ₚ items (headers cached)
  ∧ _do_keys_match (headers live) (headers cached) 3 = (true, [])
  ∧ _match_requests true live cached
    = (true, [Testing_possible_match_strictly 3; Rule 3]).
Proof.
  cbn zeta. split_and!.
  - discriminate.
  - apply perm_swap.
  - reflexivity.
  - reflexivity.
Qed.

(** C5. In loose mode the match succeeds exactly when the two methods are
    equal and the two URLs are equal as strings; headers and bodies are not
    looked at and nothing is logged. *)
Theorem C5_loose_match_is_method_and_url live cached :
  (fst (_match_requests false live cached) = true
   ↔ method live = method cached ∧ url live = url cached)
  ∧ snd (_match_requests false live cached) = [].
Proof.
  pose proof (match_requests_unfold cookie_header_to_dict false live cached) as Hun.
  cbn zeta in Hun. rewrite Hun. clear Hun.
  destruct (baseline live cached) eqn:Hb; cbn [fst snd]; (split; [| done]).
  - apply baseline_true in Hb as [-> ->]. done.
  - split; [done |]. intros [Hm Hu].
    assert (baseline live cached = true) by (by apply baseline_true).
    congruence.
Qed.

(** C6. Under strict mode, once the header and cookie checks pass: a
    non-empty cached body lets the match succeed only if the live body is
    equal to it (and then it does succeed when method and URL agree); an
    empty cached body is not compared, so whatever the live body is the
    match succeeds when method and URL agree, and no body mismatch is
    logged. *)
Theorem C6_body_compared_only_when_cached_body_nonempty live cached :
  fst (_do_headers_match (headers live) (headers cached)
         (String.length (method live))) = true →
  (truthy (body cached) = true →
     (fst (_match_requests true live cached) = true
      ↔ method cached = method live ∧ url cached = url live
        ∧ body cached = body live))
  ∧ (truthy (body cached) = false →
     ∀ any_body,
       (fst (_match_requests true (with_body live any_body) cached) = true
        ↔ method cached = method live ∧ url cached = url live)
       ∧ (method cached = method live → url cached = url live →
          _match_requests true (with_body live any_body) cached
          = (true, Testing_possible_match_strictly (String.length (method live))
                   :: snd (_do_headers_match (headers live) (headers cached)
                             (String.length (method live)))))).
Proof.
  intros Hh. split.
  - intros Ht.
    pose proof (match_requests_unfold cookie_header_to_dict true live cached) as Hun.
    cbn zeta in Hun. rewrite Hun, Hh. clear Hun.
    unfold body_ok. rewrite Ht. cbn [negb orb andb].
    destruct (baseline live cached) eqn:Hb; cbn [fst].
    + apply baseline_true in Hb as [Hm Hu].
      rewrite bool_decide_eq_true. naive_solver.
    + apply not_true_iff_false in Hb. rewrite baseline_true in Hb. naive_solver.
  - intros Ht any_body.
    pose proof (match_requests_unfold cookie_header_to_dict true
                  (with_body live any_body) cached) as Hun.
    cbn zeta in Hun. cbn [with_body method url headers body] in Hun.
    rewrite Hun, Hh. clear Hun.
    unfold body_ok. rewrite Ht. cbn [negb orb andb].
    change (baseline (with_body live any_body) cached) with (baseline live cached).
    destruct (baseline live cached) eqn:Hb; cbn [fst].
    + apply baseline_true in Hb. split; [done |]. intros _ _. by rewrite app_nil_r.
    + apply not_true_iff_false in Hb. rewrite baseline_true in Hb. naive_solver.
Qed.

(** C7 (as the code has it). Under strict mode, when the header-name check
    fails the match fails and the body is not compared: the outcome is the
    same whatever the two bodies are. The header-value comparison and, when
    either side has a Cookie header, the cookie sub-comparison are still
    performed, and what they report is logged after the two orderings. *)
Theorem C7_failed_key_check_skips_only_the_body live cached :
  method cached = method live → url cached = url live →
  fst (_do_keys_match (headers live) (headers cached)
         (String.length (method live))) = false →
  let indent := String.length (method live) in
  _match_requests true live cached
  = (false,
     [Testing_possible_match_strictly indent; Rule indent]
     ++ orderings (headers live) (headers cached) indent
     ++ snd (_are_dicts_same (headers live) (headers cached) indent "headers")
     ++ (if has_cookie (headers live) (headers cached)
         then snd (_are_dicts_same (cookies_of cookie_header_to_dict (headers live))
                     (cookies_of cookie_header_to_dict (headers cached))
                     indent "cookies")
         else [])
     ++ [Headers_mismatch indent])
  ∧ (∀ live_body cached_body,
       _match_requests true (with_body live live_body) (with_body cached cached_body)
       = _match_requests true live cached).
Proof.
  intros Hm Hu Hk indent.
  rewrite do_keys_match_unfold in Hk. cbn [fst] in Hk.
  assert (∀ b1 b2,
    _match_requests true (with_body live b1) (with_body cached b2)
    = (false,
       [Testing_possible_match_strictly indent; Rule indent]
       ++ orderings (headers live) (headers cached) indent
       ++ report (headers live) (headers cached) indent "headers"
       ++ (if has_cookie (headers live) (headers cached)
           then report (cookies_of cookie_header_to_dict (headers live))
                  (cookies_of cookie_header_to_dict (headers cached))
                  indent "cookies"
           else [])
       ++ [Headers_mismatch indent])) as Hgen.
  { intros b1 b2.
    pose proof (match_requests_unfold cookie_header_to_dict true
                  (with_body live b1) (with_body cached b2)) as Hun.
    cbn zeta in Hun. cbn [with_body method url headers body] in Hun.
    rewrite Hun. clear Hun.
    assert (baseline (with_body live b1) (with_body cached b2) = true) as ->
      by (by apply baseline_true).
    rewrite do_headers_match_unfold, Hk. cbn [fst snd andb].
    fold indent. cbn [app]. by rewrite <- !app_assoc. }
  rewrite !are_dicts_same_unfold. cbn [snd].
  split.
  - specialize (Hgen (body live) (body cached)). by destruct live, cached.
  - intros b1 b2. rewrite Hgen.
    specialize (Hgen (body live) (body cached)). by destruct live, cached.
Qed.

(** C2 (as the code has it). Under strict mode the text of the Cookie
    header is compared like that of every other header, so a live and a
    cached request whose Cookie headers differ as strings, such as
    [a=1; b=2] against [b=2; a=1], do not match. Only the cookie
    sub-comparison is insensitive to order: two decoded cookie mappings
    holding the same name/value pairs in any order pass it and nothing is
    logged for them. *)
Theorem C2_cookie_text_compared_exactly live cached text_live text_cached :
  getitem (headers live) "Cookie" = Some text_live →
  getitem (headers cached) "Cookie" = Some text_cached →
  text_live ≠ text_cached →
  fst (_match_requests true live cached) = false
  ∧ (wf (cookie_header_to_dict text_live) →
     cookie_header_to_dict text_live ≡ₚ cookie_header_to_dict text_cached →
     ∀ indent,
       _are_dicts_same (cookie_header_to_dict text_live)
         (cookie_header_to_dict text_cached) indent "cookies" = (true, [])).
Proof.
  intros Hl Hc Hne. split.
  - apply strict_match_needs_headers, headers_match_needs_same.
    by eapply same_false_value.
  - intros Hwf Hp indent. rewrite are_dicts_same_unfold.
    by rewrite (report_same _ _ _ _ (same_Permutation_dict _ _ Hwf Hp)),
               (same_Permutation_dict _ _ Hwf Hp).
Qed.

End MatcherClaims.

(** * The cookie sub-comparison when one side has no cookie header *)

Section CookieClaims.

Variable cookie_header_to_dict : string → dict.
Local Abbreviation _match_requests := (_match_requests cookie_header_to_dict).
Local Abbreviation _do_headers_match := (_do_headers_match cookie_header_to_dict).
Local Abbreviation cookies_of := (cookies_of cookie_header_to_dict).

Implicit Types request_headers cached_headers : CaseInsensitiveDict.






End CookieClaims.

(** ** The matcher run on examples *)

Lemma C6_body_compared_only_when_cached_body_nonempty_witness :
  fst (_do_headers_match Example.codec (headers Example.live_post)
         (headers Example.cached_post)
         (String.length (method Example.live_post))) = true
  ∧ (fst (_match_requests Example.codec true Example.live_post Example.cached_post)
     = true
     ↔ method Example.cached_post = method Example.live_post
       ∧ url Example.cached_post = url Example.live_post
       ∧ body Example.cached_post = body Example.live_post).
Proof.
  split; [reflexivity |].
  apply (C6_body_compared_only_when_cached_body_nonempty Example.codec
           Example.live_post Example.cached_post); reflexivity.
Defined.

(** The recorded body [x=1] rejects the live body [x=2]. *)
Example post_bodies_differ :
  Example.matches true Example.live_post Example.cached_post
  = (false, [Testing_possible_match_strictly 4; Rule 4;
             Post_data_mismatch 4 (BStr "x=2") (BStr "x=1")]).
Proof. reflexivity. Qed.

(** C2, refuted as stated: [live_ab] and [cached_ba] agree on method, URL,
    header names and their order, body and every header but the cookie
    header, and carry [a=1; b=2] and [b=2; a=1]; they do not match in strict
    mode. *)
Lemma C2_cookie_order_counterexample :
  ¬ (∀ live cached : PreparedRequest,
       method live = method cached → url live = url cached →
       keys (headers live) = keys (headers cached) →
       body live = body cached →
       (∀ name, lower name ≠ lower "Cookie" →
          getitem (headers live) name = getitem (headers cached) name) →
       getitem (headers live) "Cookie" = Some "a=1; b=2" →
       getitem (headers cached) "Cookie" = Some "b=2; a=1" →
       fst (_match_requests CookieCodec.cookie_header_to_dict true live cached)
       = true).
Proof.
  intros Hclaim.
  specialize (Hclaim Example.live_ab Example.cached_ba
                eq_refl eq_refl eq_refl eq_refl).
  assert (fst (_match_requests CookieCodec.cookie_header_to_dict true
                 Example.live_ab Example.cached_ba) = true) as Hyes.
  { apply Hclaim; [| reflexivity | reflexivity].
    intros name Hname.
    cbn [Example.live_ab Example.cached_ba headers getitem ci_mapping items
         getitem_by].
    destruct (bool_decide (lower "Accept" = lower name)); [done |].
    by rewrite !bool_decide_eq_false_2 by (by intros Heq; destruct Hname). }
  vm_compute in Hyes. discriminate.
Qed.

Lemma wf_cookies_ab : wf (Example.codec "a=1; b=2").
Proof. apply (bool_decide_unpack _). vm_compute. exact I. Defined.

Lemma C2_cookie_text_compared_exactly_witness :
  getitem (headers Example.live_ab) "Cookie" = Some "a=1; b=2"
  ∧ getitem (headers Example.cached_ba) "Cookie" = Some "b=2; a=1"
  ∧ "a=1; b=2" ≠ "b=2; a=1"
  ∧ wf (Example.codec "a=1; b=2")
  ∧ Example.codec "a=1; b=2" ≡ₚ Example.codec "b=2; a=1"
  ∧ fst (_match_requests Example.codec true Example.live_ab Example.cached_ba)
    = false
  ∧ _are_dicts_same (Example.codec "a=1; b=2") (Example.codec "b=2; a=1")
      3 "cookies" = (true, []).
Proof.
  assert (Example.codec "a=1; b=2" ≡ₚ Example.codec "b=2; a=1") as Hp
    by apply perm_swap.
  pose proof (C2_cookie_text_compared_exactly Example.codec
                Example.live_ab Example.cached_ba "a=1; b=2" "b=2; a=1"
                eq_refl eq_refl ltac:(discriminate)) as [Hno Hsub].
  split_and!;
    [reflexivity | reflexivity | discriminate | exact wf_cookies_ab | exact Hp
    | exact Hno | exact (Hsub wf_cookies_ab Hp 3)].
Defined.

(** C7, refuted as stated: [live_cookie] against [cached_bare] fails the
    header-name check, and the log holds a record of the cookie
    sub-comparison, which is neither one of the two orderings nor one of the
    records framing the header check. *)
Lemma C7_short_circuit_counterexample :
  ¬ (∀ live cached : PreparedRequest,
       method cached = method live → url cached = url live →
       let indent := String.length (method live) in
       fst (_do_keys_match (headers live) (headers cached) indent) = false →
       ∀ r, r ∈ snd (_match_requests CookieCodec.cookie_header_to_dict true
                       live cached) →
            r ∈ [Testing_possible_match_strictly indent; Rule indent;
                 Headers_mismatch indent]
                ++ orderings (headers live) (headers cached) indent).
Proof.
  intros Hclaim.
  specialize (Hclaim Example.live_cookie Example.cached_bare
                eq_refl eq_refl eq_refl (Redundant_entries 3 "cookies")).
  rewrite !list_elem_of_In in Hclaim. vm_compute in Hclaim.
  assert (Redundant_entries 3 "cookies" ≠ Redundant_entries 3 "cookies") as Hno.
  { intros _. destruct Hclaim as [Hr|[Hr|[Hr|[Hr|[Hr|[Hr|[Hr|[]]]]]]]];
      [tauto | discriminate Hr ..]. }
  by apply Hno.
Qed.

Lemma C7_failed_key_check_skips_only_the_body_witness :
  method Example.cached_bare = method Example.live_cookie
  ∧ url Example.cached_bare = url Example.live_cookie
  ∧ fst (_do_keys_match (headers Example.live_cookie)
           (headers Example.cached_bare) 3) = false
  ∧ _match_requests Example.codec true Example.live_cookie Example.cached_bare
    = (false,
       [Testing_possible_match_strictly 3; Rule 3;
        Header_order_does_not_match 3; Key_list 3 ["Cookie"];
        Does_not_equal_cached 3; Key_list 3 [];
        Redundant_entries 3 "headers"; Entry_line 3 "Cookie" (Some "a=1");
        Missing_entries 3 "cookies"; Entry_line 3 "" (Some "None");
        Redundant_entries 3 "cookies"; Entry_line 3 "a" (Some "1");
        Headers_mismatch 3]).
Proof.
  split_and!; [reflexivity.. |].
  destruct (C7_failed_key_check_skips_only_the_body Example.codec
              Example.live_cookie Example.cached_bare eq_refl eq_refl eq_refl)
    as [Hlog _].
  rewrite Hlog. reflexivity.
Defined.

(** The header names are looked up ignoring case, but the key check
    compares them as written: a header that differs in capitalisation only
    fails the key check, and the value comparison has nothing to report. *)
Example capitalisation_fails_the_key_check_only :
  Example.matches true Example.live_lowercase Example.cached_capitalised
  = (false,
     [Testing_possible_match_strictly 3; Rule 3;
      Header_order_does_not_match 3; Key_list 3 ["accept"];
      Does_not_equal_cached 3; Key_list 3 ["Accept"];
      Headers_mismatch 3])
  ∧ _are_dicts_same (headers Example.live_lowercase)
      (headers Example.cached_capitalised) 3 "headers" = (true, []).
Proof. split; reflexivity. Qed.

(** A cookie header written in lower case is a cookie header. *)
Example lowercase_cookie_header_is_compared :
  Example.matches true Example.live_lowercase_cookie Example.cached_bare
  = (false,
     [Testing_possible_match_strictly 3; Rule 3;
      Header_order_does_not_match 3; Key_list 3 ["cookie"];
      Does_not_equal_cached 3; Key_list 3 [];
      Redundant_entries 3 "headers"; Entry_line 3 "cookie" (Some "a=1");
      Missing_entries 3 "cookies"; Entry_line 3 "" (Some "None");
      Redundant_entries 3 "cookies"; Entry_line 3 "a" (Some "1");
      Headers_mismatch 3]).
Proof. reflexivity. Qed.


(** * The adapter: scan, consumption, redirects and the store *)

Section AdapterClaims.

Variable cookie_header_to_dict : string → dict.
Context `{Collaborators}.

Local Abbreviation match_entry := (match_entry cookie_header_to_dict).
Local Abbreviation send := (send cookie_header_to_dict).
Local Abbreviation accepts := (accepts cookie_header_to_dict).
Local Abbreviation attempts := (attempts cookie_header_to_dict).

Implicit Types self : HarAdapter.
Implicit Types request : PreparedRequest.
Implicit Types entry : Entry.

(** The answer built from a recorded entry. *)
Local Abbreviation answer request entry :=
  (build_response request (response_from_entry entry)).

(** An entry that disagrees on method or URL is rejected in either mode. *)
Lemma rejects_other_method_or_url self request entry :
  ¬ (method (cached_request_of entry) = method request
     ∧ url (cached_request_of entry) = url request) →
  ¬ accepts self request entry.
Proof.
  unfold accepts, match_entry. intros Hne.
  pose proof (match_requests_unfold cookie_header_to_dict
                (_strict_matching self) request (cached_request_of entry)) as Hun.
  cbn zeta in Hun. rewrite Hun.
  destruct (baseline request (cached_request_of entry)) eqn:Hb; [| done].
  by apply baseline_true in Hb.
Qed.

(** C3. [send] answers from the first entry, in store order, that accepts
    the live request. With [delete_after_match] that entry is taken out of
    the store, the entries before and after it staying as they were, so
    that sending the same request again answers from the next accepting
    entry, which is consumed in turn, or raises when no accepting entry is
    left. Without [delete_after_match] the store is left as it was. *)
Theorem C3_first_match_wins_and_is_consumed self request before entry after :
  entries self = before ++ entry :: after →
  Forall (λ e, ¬ accepts self request e) before →
  accepts self request entry →
  let self' :=
    if _delete_after_match self
    then mkAdapter (before ++ after) (_strict_matching self) true
    else self in
  fst (send self request) = (Return (answer request entry), self')
  ∧ (_delete_after_match self = true →
     (∀ between entry' rest,
        after = between ++ entry' :: rest →
        Forall (λ e, ¬ accepts self request e) between →
        accepts self request entry' →
        fst (send self' request)
        = (Return (answer request entry'),
           mkAdapter (before ++ between ++ rest) (_strict_matching self) true))
     ∧ (Forall (λ e, ¬ accepts self request e) after →
        fst (send self' request) = (Raise NoMatchFound, self'))).
Proof.
  intros Hes Hb He self'.
  assert (fst (send self request) = (Return (answer request entry), self')) as Hfirst.
  { rewrite (send_hit _ self request before entry after Hes Hb He). cbn [fst].
    unfold self'. destruct (_delete_after_match self) eqn:Hd; [| done].
    by rewrite (del_entry_middle self before entry after Hes), Hd. }
  split; [done |]. intros Hd. unfold self'. rewrite Hd.
  set (next := mkAdapter (before ++ after) (_strict_matching self) true).
  assert (∀ e, accepts next request e ↔ accepts self request e) as Hsame by done.
  split.
  - intros between entry' rest -> Hbetween He'.
    rewrite (send_hit _ next request (before ++ between) entry' rest).
    + cbn [fst _delete_after_match next].
      rewrite (del_entry_middle next (before ++ between) entry' rest)
        by (cbn; by rewrite <- app_assoc).
      by rewrite <- app_assoc.
    + cbn. by rewrite <- app_assoc.
    + apply Forall_app. split; eapply Forall_impl; eauto; intros e; by rewrite Hsame.
    + by apply Hsame.
  - intros Hafter. rewrite send_miss; [done |].
    cbn [entries next]. apply Forall_app.
    split; eapply Forall_impl; eauto; intros e; by rewrite Hsame.
Qed.

(** C4. [send] raises exactly when no entry of the store accepts the live
    request, and what it raises is then the no-match exception. In
    particular it raises on an empty store and on a store none of whose
    entries has the method and the URL of the live request. In either case
    the store is left as it was. *)
Theorem C4_raises_exactly_when_nothing_matches self request :
  ((∃ e, fst (fst (send self request)) = Raise e)
   ↔ Forall (λ entry, ¬ accepts self request entry) (entries self))
  ∧ (∀ e, fst (fst (send self request)) = Raise e → e = NoMatchFound)
  ∧ (entries self = [] → fst (send self request) = (Raise NoMatchFound, self))
  ∧ (Forall (λ entry, ¬ (method (cached_request_of entry) = method request
                        ∧ url (cached_request_of entry) = url request))
       (entries self) →
     fst (send self request) = (Raise NoMatchFound, self)).
Proof.
  destruct (first_accepting cookie_header_to_dict self request (entries self))
    as [Hnone|(before & entry & after & Hes & Hb & He)].
  - rewrite (send_miss _ self request Hnone). cbn [fst]. split_and!.
    + split; [done | eauto].
    + by intros e [= <-].
    + done.
    + done.
  - rewrite (send_hit _ self request before entry after Hes Hb He). cbn [fst].
    split_and!.
    + split; [by intros [e ?] |]. rewrite Hes. intros Hall. exfalso.
      apply Forall_app in Hall as [_ Hall]. by apply Forall_cons in Hall as [Hn _].
    + done.
    + intros Hnil. rewrite Hnil in Hes. by destruct before.
    + intros Hall. exfalso. rewrite Hes in Hall.
      apply Forall_app in Hall as [_ Hall]. apply Forall_cons in Hall as [Hn _].
      by eapply rejects_other_method_or_url.
Qed.

(** C9. [send] never adds to the store and never reorders it: the store
    after the call is the store before it, or the store before it with one
    entry deleted, the one whose answer is returned; the remaining entries
    keep their relative order. A call that raises, and any call made with
    [delete_after_match] off, leaves the store as it was. The two switches
    are never changed. *)
Theorem C9_store_only_loses_the_matched_entry self request :
  let '(outcome, self', _) := send self request in
  _strict_matching self' = _strict_matching self
  ∧ _delete_after_match self' = _delete_after_match self
  ∧ entries self' `sublist_of` entries self
  ∧ (entries self' = entries self
     ∨ ∃ i entry,
         entries self !! i = Some entry
         ∧ entries self' = delete i (entries self)
         ∧ length (entries self) = S (length (entries self'))
         ∧ outcome = Return (answer request entry)
         ∧ _delete_after_match self = true)
  ∧ ((∃ e, outcome = Raise e) → self' = self)
  ∧ (_delete_after_match self = false → self' = self).
Proof.
  destruct (first_accepting cookie_header_to_dict self request (entries self))
    as [Hnone|(before & entry & after & Hes & Hb & He)].
  - rewrite (send_miss _ self request Hnone). split_and!; auto.
  - rewrite (send_hit _ self request before entry after Hes Hb He).
    destruct (_delete_after_match self) eqn:Hd.
    + cbn [del_entry entries _strict_matching _delete_after_match].
      split_and!; [done | done | apply sublist_delete | | by intros [e ?] | done].
      right. exists (length before), entry. split_and!; [| done | | done | done].
      * rewrite Hes. by apply list_lookup_middle.
      * rewrite Hes, delete_middle, !length_app. cbn [length]. lia.
    + split_and!; auto.
Qed.

(** C8. For the entry that answers a live request: the response is the
    recorded one in every case; with an empty redirect target nothing more
    happens after the match is logged (and the deletion, if any); with a
    non-empty one the redirect URL is resolved and logged last. A target
    starting with [/] is appended to the scheme and host of the live
    request's URL; any other target is taken as it is. *)
Theorem C8_redirect_target_resolution self request before entry after :
  entries self = before ++ entry :: after →
  Forall (λ e, ¬ accepts self request e) before →
  accepts self request entry →
  let indent := String.length (method request) in
  let matched :=
    attempts self request (before ++ [entry])
    ++ Request_matched indent
       :: (if _delete_after_match self then [Deleted_matched_entry indent] else []) in
  fst (fst (send self request)) = Return (answer request entry)
  ∧ (redirectURL entry = "" → snd (send self request) = matched)
  ∧ (redirectURL entry ≠ "" →
     snd (send self request)
     = matched ++ [Handling_redirection indent
                     (parse_url (redirect_target request (redirectURL entry)))])
  ∧ (startswith_slash (redirectURL entry) = true →
     ∀ live_scheme live_host,
       scheme (parse_url (url request)) = Some live_scheme →
       hostname (parse_url (url request)) = Some live_host →
       redirect_target request (redirectURL entry)
       = (live_scheme +:+ "://" +:+ live_host +:+ redirectURL entry)%string)
  ∧ (startswith_slash (redirectURL entry) = false →
     redirect_target request (redirectURL entry) = redirectURL entry).
Proof.
  intros Hes Hb He indent matched.
  rewrite (send_hit _ self request before entry after Hes Hb He).
  cbn [fst snd]. unfold epilogue. fold indent. split_and!.
  - done.
  - intros Hr. rewrite bool_decide_eq_true_2 by done.
    unfold matched. by rewrite app_nil_r.
  - intros Hr. rewrite bool_decide_eq_false_2 by done.
    unfold matched. by rewrite <- app_assoc.
  - intros Hs live_scheme live_host Hsch Hhost.
    unfold redirect_target. by rewrite Hs, Hsch, Hhost.
  - intros Hs. unfold redirect_target. by rewrite Hs.
Qed.

End AdapterClaims.

(** ** The adapter run on a capture *)

Lemma rejects_entry_b :
  Forall (λ e, ¬ accepts Example.codec Example.capture Example.live_a e)
    [Example.entry_b].
Proof.
  apply Forall_singleton. unfold accepts. intros Hyes.
  vm_compute in Hyes. discriminate Hyes.
Defined.

Lemma C3_first_match_wins_and_is_consumed_witness :
  entries Example.capture = [Example.entry_b] ++ Example.entry_a :: [Example.entry_a_again]
  ∧ Forall (λ e, ¬ accepts Example.codec Example.capture Example.live_a e)
      [Example.entry_b]
  ∧ accepts Example.codec Example.capture Example.live_a Example.entry_a
  ∧ fst (Example.send Example.capture Example.live_a)
    = (Return (302, ""),
       mkAdapter [Example.entry_b; Example.entry_a_again] true true)
  ∧ fst (Example.send
           (mkAdapter [Example.entry_b; Example.entry_a_again] true true)
           Example.live_a)
    = (Return (302, ""), mkAdapter [Example.entry_b] true true).
Proof.
  destruct (C3_first_match_wins_and_is_consumed Example.codec
              Example.capture Example.live_a
              [Example.entry_b] Example.entry_a [Example.entry_a_again]
              eq_refl rejects_entry_b eq_refl) as [Hfirst Hthen].
  destruct (Hthen eq_refl) as [Hnext _].
  split_and!; [reflexivity | exact rejects_entry_b | reflexivity | exact Hfirst |].
  exact (Hnext [] Example.entry_a_again [] eq_refl (Forall_nil_2 _) eq_refl).
Defined.

Lemma C8_redirect_target_resolution_witness :
  entries Example.capture = [Example.entry_b] ++ Example.entry_a :: [Example.entry_a_again]
  ∧ Forall (λ e, ¬ accepts Example.codec Example.capture Example.live_a e)
      [Example.entry_b]
  ∧ accepts Example.codec Example.capture Example.live_a Example.entry_a
  ∧ startswith_slash (redirectURL Example.entry_a) = true
  ∧ scheme (parse_url (url Example.live_a)) = Some "https"
  ∧ hostname (parse_url (url Example.live_a)) = Some "host.test"
  ∧ redirect_target Example.live_a (redirectURL Example.entry_a)
    = "https://host.test/next".
Proof.
  destruct (C8_redirect_target_resolution Example.codec
              Example.capture Example.live_a
              [Example.entry_b] Example.entry_a [Example.entry_a_again]
              eq_refl rejects_entry_b eq_refl) as (_ & _ & _ & Hslash & _).
  split_and!; [reflexivity | exact rejects_entry_b | reflexivity..|].
  exact (Hslash eq_refl "https" "host.test" eq_refl eq_refl).
Defined.

(** The capture replayed: the first request for [/a] is answered from the
    second entry and redirected on the live host; the next one from the
    third entry, whose redirect target is absolute and taken as it is; a
    third one finds nothing. *)
Example replay_three_times :
  let '(first, store1, log1) := Example.send Example.capture Example.live_a in
  let '(second, store2, log2) := Example.send store1 Example.live_a in
  let '(third, store3, _) := Example.send store2 Example.live_a in
  first = Return (302, "") ∧ second = Return (302, "")
  ∧ third = Raise NoMatchFound
  ∧ entries store1 = [Example.entry_b; Example.entry_a_again]
  ∧ entries store2 = [Example.entry_b] ∧ entries store3 = [Example.entry_b]
  ∧ last log1
    = Some (Handling_redirection 3
              (Example.parse_simple_url "https://host.test/next"))
  ∧ last log2
    = Some (Handling_redirection 3
              (Example.parse_simple_url "https://other.test/y")).
Proof. vm_compute. by split_and!. Qed.

Lemma C4_raises_exactly_when_nothing_matches_witness :
  entries Example.nothing_captured = []
  ∧ fst (Example.send Example.nothing_captured Example.live_a)
    = (Raise NoMatchFound, Example.nothing_captured)
  ∧ fst (Example.send Example.only_b Example.live_a)
    = (Raise NoMatchFound, Example.only_b).
Proof.
  split_and!; [reflexivity | |].
  - destruct (C4_raises_exactly_when_nothing_matches Example.codec
                Example.nothing_captured Example.live_a) as (_ & _ & Hempty & _).
    exact (Hempty eq_refl).
  - destruct (C4_raises_exactly_when_nothing_matches Example.codec
                Example.only_b Example.live_a) as (_ & _ & _ & Hother).
    apply Hother, Forall_singleton. intros [_ Hurl]. discriminate Hurl.
Defined.

Lemma C9_store_only_loses_the_matched_entry_witness :
  entries (snd (fst (Example.send Example.capture Example.live_a)))
  `sublist_of` entries Example.capture.
Proof.
  pose proof (C9_store_only_loses_the_matched_entry Example.codec
                Example.capture Example.live_a) as Hstore.
  destruct (send Example.codec Example.capture Example.live_a)
    as [[outcome store] log] eqn:Hsend.
  unfold Example.send. rewrite Hsend. apply Hstore.
Defined.

(** * Further properties of the matcher *)

Section MatcherMore.

Variable cookie_header_to_dict : string → dict.
Local Abbreviation _match_requests := (_match_requests cookie_header_to_dict).
Local Abbreviation _do_headers_match := (_do_headers_match cookie_header_to_dict).

Implicit Types live cached : PreparedRequest.
Implicit Types request_dict cached_dict : dict.
Implicit Types request_headers cached_headers : CaseInsensitiveDict.

(** X1. [_are_dicts_same] answers [True] exactly when the two dicts have
    the same keys and, under each key, the same value; and it answers
    [True] exactly when it logs nothing. *)
Theorem X1_are_dicts_same_verdict request_dict cached_dict indent name :
  (fst (_are_dicts_same request_dict cached_dict indent name) = true
   ↔ (∀ key, key ∈ keys request_dict ↔ key ∈ keys cached_dict)
     ∧ (∀ key, key ∈ keys cached_dict →
               getitem request_dict key = getitem cached_dict key))
  ∧ (fst (_are_dicts_same request_dict cached_dict indent name) = true
     ↔ snd (_are_dicts_same request_dict cached_dict indent name) = []).
Proof.
  rewrite are_dicts_same_unfold. cbn [fst snd]. split.
  - rewrite same_true. split.
    + intros (Hcr & Hrc & Hv). split; [| done]. intros key.
      split; intros Hin; by apply contains_true; auto.
    + intros (Hk & Hv). split_and!; [| | done]; intros key Hin;
        apply contains_true; by apply Hk.
  - split; [apply report_same | apply report_nil_same].
Qed.

(** X2. On well-formed dicts [_are_dicts_same] answers [True] exactly when
    the two dicts hold the same items, in whatever order. *)
Theorem X2_are_dicts_same_is_item_equality request_dict cached_dict indent name :
  wf request_dict → wf cached_dict →
  (fst (_are_dicts_same request_dict cached_dict indent name) = true
   ↔ request_dict ≡ₚ cached_dict).
Proof.
  intros Hr Hc. rewrite are_dicts_same_unfold. cbn [fst]. split.
  - by apply same_items_dict.
  - by apply same_Permutation_dict.
Qed.

(** X3. The verdict of [_are_dicts_same] does not depend on which dict is
    passed as the request's and which as the cached one. *)
Theorem X3_are_dicts_same_verdict_symmetric request_dict cached_dict indent name :
  fst (_are_dicts_same request_dict cached_dict indent name)
  = fst (_are_dicts_same cached_dict request_dict indent name).
Proof.
  rewrite !are_dicts_same_unfold. cbn [fst].
  assert (∀ a b : dict, same a b = true → same b a = true) as Hsym.
  { intros a b (Hba & Hab & Hv)%same_true. apply same_true.
    split_and!; [done.. |]. intros key Hkey. symmetry.
    by apply Hv, contains_true, Hab. }
  destruct (same request_dict cached_dict) eqn:H1,
           (same cached_dict request_dict) eqn:H2; try done.
  - apply Hsym in H1. congruence.
  - apply Hsym in H2. congruence.
Qed.

(** X4. Every subscript [d[key]] that [_are_dicts_same] evaluates for its
    log is on a key of [d]: no line of the report stands for a [KeyError]. *)
Theorem X4_are_dicts_same_never_misses_a_key request_dict cached_dict indent name r :
  r ∈ snd (_are_dicts_same request_dict cached_dict indent name) →
  (∀ i key, r ≠ Entry_line i key None) ∧ (∀ i key, r ≠ Cached_value i key None).
Proof.
  rewrite are_dicts_same_unfold. cbn [snd]. unfold report.
  assert (∀ (d : dict) key, contains key d = true → shown d key ≠ None) as Hsome.
  { intros d key Hkey%contains_true%getitem_is_Some. unfold shown.
    by destruct Hkey as [v ->]. }
  assert (∀ (d : dict) key, key ∈ keys d → shown d key ≠ None) as Hkey.
  { intros d key Hin. by apply Hsome, contains_true. }
  rewrite !elem_of_app.
  intros [Hin|[Hin|Hin]]; apply elem_of_block in Hin as [->|(k & Hk & Hr)];
    try (split; intros; discriminate).
  - apply list_elem_of_filter in Hk as [_ Hk].
    apply list_elem_of_singleton in Hr as ->.
    split; intros i key Heq; [| done].
    injection Heq as _ _ Hnone. exact (Hkey _ _ Hk Hnone).
  - apply list_elem_of_filter in Hk as [_ Hk].
    apply list_elem_of_singleton in Hr as ->.
    split; intros i key Heq; [| done].
    injection Heq as _ _ Hnone. exact (Hkey _ _ Hk Hnone).
  - apply list_elem_of_filter in Hk as [[Hkr _] Hkc].
    apply elem_of_cons in Hr as [->|Hr]; [| apply elem_of_cons in Hr as [->|Hr]].
    + split; intros i key Heq; [| done].
      injection Heq as _ _ Hnone. exact (Hsome _ _ Hkr Hnone).
    + split; intros; discriminate.
    + apply list_elem_of_singleton in Hr as ->.
      split; intros i key Heq; [done |].
      injection Heq as _ _ Hnone. exact (Hkey _ _ Hkc Hnone).
Qed.

(** X5. On well-formed dicts [_do_keys_match] answers [True] exactly when
    the two dicts have the same set of keys, whatever their order; it logs
    the two key sequences when it answers [False] and nothing otherwise. *)
Theorem X5_do_keys_match_compares_key_sets request_headers cached_headers indent :
  wf request_headers → wf cached_headers →
  (fst (_do_keys_match request_headers cached_headers indent) = true
   ↔ keys request_headers ≡ₚ keys cached_headers)
  ∧ snd (_do_keys_match request_headers cached_headers indent)
    = if fst (_do_keys_match request_headers cached_headers indent) then []
      else [Header_order_does_not_match indent;
            Key_list indent (keys request_headers);
            Does_not_equal_cached indent;
            Key_list indent (keys cached_headers)].
Proof.
  intros Hr Hc. rewrite do_keys_match_unfold. cbn [fst snd].
  split; [| done].
  rewrite keys_view_eq_true by (by apply wf_dict_of).
  by rewrite !keys_dict_of.
Qed.

(** X6. The verdict of [_do_headers_match] is the conjunction of the key
    check and of the header-value comparison: the cookie sub-comparison
    never changes it, whatever the cookie decoder is. *)
Theorem X6_headers_verdict_is_key_check_and_value_comparison
    request_headers cached_headers indent :
  fst (_do_headers_match request_headers cached_headers indent)
  = fst (_do_keys_match request_headers cached_headers indent)
    && fst (_are_dicts_same request_headers cached_headers indent "headers").
Proof.
  by rewrite headers_verdict, do_keys_match_unfold, are_dicts_same_unfold.
Qed.

(** X7. [_do_headers_match] answers [True] exactly when all it logs is the
    rule that opens its report. *)
Theorem X7_headers_match_iff_silent request_headers cached_headers indent :
  fst (_do_headers_match request_headers cached_headers indent) = true
  ↔ snd (_do_headers_match request_headers cached_headers indent) = [Rule indent].
Proof.
  rewrite do_headers_match_unfold. cbn [fst snd]. split.
  - intros [[Hk Hs]%andb_true_iff Hc]%andb_true_iff.
    rewrite Hk, (report_same _ _ _ _ Hs). cbn [app].
    destruct (has_cookie _ _); [| done]. by rewrite (report_same _ _ _ _ Hc).
  - intros [= Hlog].
    apply app_eq_nil in Hlog as [Hk [Hs Hc]%app_eq_nil].
    destruct (keys_view_eq (dict_of request_headers) (dict_of cached_headers));
      [| done].
    rewrite (report_nil_same _ _ _ _ Hs). cbn [andb].
    destruct (has_cookie _ _); [| done]. by apply report_nil_same in Hc.
Qed.

(** The items of a header mapping with their names in lower case. *)
Lemma elem_of_lowered (h : CaseInsensitiveDict) k v :
  (k, v) ∈ prod_map lower id <$> items h
  ↔ ∃ name, (name, v) ∈ items h ∧ lower name = k.
Proof.
  rewrite list_elem_of_fmap. split.
  - intros ([name v'] & [= -> ->] & Hin). by exists name.
  - intros (name & Hin & <-). by exists (name, v).
Qed.

Lemma lowered_keys (h : CaseInsensitiveDict) :
  (prod_map lower id <$> items h).*1 = lower <$> keys h.
Proof.
  cbn [keys ci_mapping]. rewrite <- !list_fmap_compose.
  by apply list_fmap_ext; intros ? [].
Qed.

Lemma lowered_NoDup (h : CaseInsensitiveDict) :
  wf h → NoDup (prod_map lower id <$> items h).
Proof.
  intros Hwf. eapply NoDup_fmap_1. rewrite lowered_keys. exact Hwf.
Qed.

(** X20. On well-formed header mappings [_are_dicts_same] answers [True]
    exactly when the two mappings hold the same values under the same
    names up to capitalisation, in whatever order: header names are looked
    up ignoring case. *)
Theorem X20_header_values_compared_up_to_capitalisation
    request_headers cached_headers indent name :
  wf request_headers → wf cached_headers →
  (fst (_are_dicts_same request_headers cached_headers indent name) = true
   ↔ prod_map lower id <$> items request_headers
     ≡ₚ prod_map lower id <$> items cached_headers).
Proof.
  intros Hr Hc. rewrite are_dicts_same_unfold. cbn [fst].
  assert (∀ (h : CaseInsensitiveDict) k v,
            wf h → (k, v) ∈ items h → getitem h k = Some v) as Hstored.
  { intros h k v Hwf Hin. by apply (getitem_by_Some lower). }
  assert (∀ (h : CaseInsensitiveDict) k v,
            getitem h k = Some v → ∃ k', (k', v) ∈ items h ∧ lower k' = lower k)
    as Hfound.
  { intros h k v Hget. by apply (getitem_by_elem lower). }
  assert (∀ (h : CaseInsensitiveDict) k v, (k, v) ∈ items h → k ∈ keys h) as Hkey.
  { intros h k v Hin. cbn [keys ci_mapping]. apply list_elem_of_fmap.
    by exists (k, v). }
  split.
  - intros (Hcr & Hrc & Hv)%same_true.
    apply NoDup_Permutation; [by apply lowered_NoDup.. |].
    intros [k v]. rewrite !elem_of_lowered. split.
    + intros (kr & Hin & <-).
      pose proof (Hrc kr (Hkey _ _ _ Hin)) as (kc & Hkc & Hlow)%contains_header.
      pose proof (Hv kc Hkc) as Heq.
      rewrite (getitem_lower kc kr request_headers Hlow) in Heq.
      rewrite (Hstored _ _ _ Hr Hin) in Heq. symmetry in Heq.
      apply Hfound in Heq as (k' & Hin' & Hlow').
      exists k'. split; [done |]. congruence.
    + intros (kc & Hin & <-).
      pose proof (Hv kc (Hkey _ _ _ Hin)) as Heq.
      rewrite (Hstored _ _ _ Hc Hin) in Heq.
      apply Hfound in Heq as (k' & Hin' & Hlow').
      by exists k'.
  - intros Hp. apply same_true.
    assert (∀ (a b : CaseInsensitiveDict),
              prod_map lower id <$> items a ≡ₚ prod_map lower id <$> items b →
              ∀ k, k ∈ keys a → contains k b = true) as Hcontains.
    { intros a b Hab k Hk. cbn [contains ci_mapping]. apply contains_by_true.
      change ((items b).*1) with (keys b).
      rewrite <- (lowered_keys b), <- Hab, lowered_keys.
      by apply list_elem_of_fmap_2. }
    split_and!.
    + by apply Hcontains.
    + by apply Hcontains.
    + intros k Hk.
      assert (is_Some (getitem cached_headers k)) as [v Hget].
      { apply (getitem_by_is_Some lower). by apply contains_by_key. }
      rewrite Hget. pose proof Hget as (kc & Hin & Hlow)%Hfound.
      assert ((lower k, v) ∈ prod_map lower id <$> items request_headers)
        as (kr & Hinr & Hlowr)%elem_of_lowered.
      { rewrite Hp. apply elem_of_lowered. by exists kc. }
      rewrite <- (getitem_lower kr k request_headers Hlowr).
      by apply Hstored.
Qed.

End MatcherMore.

Section MatchRequestsMore.

Variable cookie_header_to_dict : string → dict.
Local Abbreviation _match_requests := (_match_requests cookie_header_to_dict).
Local Abbreviation _do_headers_match := (_do_headers_match cookie_header_to_dict).

Implicit Types live cached request : PreparedRequest.

Lemma match_requests_self (strict : bool) request :
  _match_requests strict request request
  = (true,
     if strict
     then [Testing_possible_match_strictly (String.length (method request));
           Rule (String.length (method request))]
     else []).
Proof.
  pose proof (match_requests_unfold cookie_header_to_dict strict request request)
    as Hun.
  cbn zeta in Hun. rewrite Hun. clear Hun.
  rewrite (proj2 (baseline_true request request)) by done.
  destruct strict; [| done].
  rewrite do_headers_match_unfold. cbn [fst snd].
  rewrite keys_view_eq_refl, same_refl_headers,
    (report_same _ _ _ _ (same_refl_headers _)).
  rewrite same_refl_dict, (report_same _ _ _ _ (same_refl_dict _)).
  unfold body_ok. rewrite bool_decide_eq_true_2 by done.
  rewrite orb_true_r. cbn. by destruct (has_cookie _ _).
Qed.

(** X8. A request matches itself, in strict and in loose mode, whatever its
    headers, cookies and body are; strict mode logs its two opening records
    and nothing else. *)
Theorem X8_request_matches_itself (strict : bool) request :
  _match_requests strict request request
  = (true,
     if strict
     then [Testing_possible_match_strictly (String.length (method request));
           Rule (String.length (method request))]
     else []).
Proof. apply match_requests_self. Qed.

Lemma strict_implies_loose live cached :
  fst (_match_requests true live cached) = true →
  fst (_match_requests false live cached) = true.
Proof.
  pose proof (match_requests_unfold cookie_header_to_dict true live cached) as Hs.
  pose proof (match_requests_unfold cookie_header_to_dict false live cached) as Hl.
  cbn zeta in Hs, Hl. rewrite Hs, Hl.
  by destruct (baseline live cached).
Qed.

(** X9. Whatever strict mode accepts, loose mode accepts. *)
Theorem X9_strict_match_implies_loose_match live cached :
  fst (_match_requests true live cached) = true →
  fst (_match_requests false live cached) = true.
Proof. apply strict_implies_loose. Qed.

(** X10. When the methods differ or the URLs differ the answer is [False]
    in either mode and nothing is logged: headers, cookies and bodies are
    not looked at. *)
Theorem X10_other_method_or_url_is_rejected_silently (strict : bool) live cached :
  method cached ≠ method live ∨ url cached ≠ url live →
  _match_requests strict live cached = (false, []).
Proof.
  intros Hne.
  pose proof (match_requests_unfold cookie_header_to_dict strict live cached) as Hun.
  cbn zeta in Hun. rewrite Hun.
  destruct (baseline live cached) eqn:Hb; [| done].
  apply baseline_true in Hb as [Hm Hu]. by destruct Hne.
Qed.

(** X11. On well-formed header mappings strict mode accepts exactly when
    the methods are equal, the URLs are equal, the two header mappings hold
    the same name/value items in whatever order, and the cached body is
    empty or equal to the live one. *)
Theorem X11_strict_match_characterised live cached :
  wf (headers live) → wf (headers cached) →
  (fst (_match_requests true live cached) = true
   ↔ method cached = method live
     ∧ url cached = url live
     ∧ items (headers live) ≡ₚ items (headers cached)
     ∧ (truthy (body cached) = true → body cached = body live)).
Proof.
  intros Hwl Hwc.
  pose proof (match_requests_unfold cookie_header_to_dict true live cached) as Hun.
  cbn zeta in Hun. rewrite Hun. clear Hun.
  rewrite headers_verdict.
  assert (body_ok live cached = true
          ↔ (truthy (body cached) = true → body cached = body live)) as Hbody.
  { unfold body_ok. destruct (truthy (body cached)); cbn [negb orb].
    - rewrite bool_decide_eq_true. split; auto.
    - split; [discriminate | done]. }
  destruct (baseline live cached) eqn:Hb; cbn [fst].
  - apply baseline_true in Hb as [Hm Hu].
    rewrite !andb_true_iff, Hbody. split.
    + intros [[Hk Hs] Hok]. split_and!; [done | done | | done].
      by apply same_items_headers.
    + intros (_ & _ & Hp & Hok). split_and!; [| | done].
      * by apply keys_view_eq_Permutation_headers.
      * by apply same_Permutation_headers.
  - apply not_true_iff_false in Hb. rewrite baseline_true in Hb.
    split; [discriminate |]. intros (Hm & Hu & _). by destruct Hb.
Qed.

End MatchRequestsMore.

(** * Further properties of the adapter *)

Section AdapterMore.

Variable cookie_header_to_dict : string → dict.
Context `{Collaborators}.

Local Abbreviation match_entry := (match_entry cookie_header_to_dict).
Local Abbreviation send := (send cookie_header_to_dict).
Local Abbreviation send_all := (send_all cookie_header_to_dict).
Local Abbreviation accepts := (accepts cookie_header_to_dict).

Implicit Types self : HarAdapter.
Implicit Types request : PreparedRequest.
Implicit Types entry : Entry.

Local Abbreviation answer request entry :=
  (build_response request (response_from_entry entry)).

(** An entry accepts the request it was recorded from. *)
Lemma accepts_own_request self entry :
  accepts self (cached_request_of entry) entry.
Proof.
  unfold accepts, match_entry. by rewrite match_requests_self.
Qed.

(** The verdict on an entry depends on the adapter through
    [_strict_matching] only. *)
Lemma accepts_same_mode self1 self2 request entry :
  _strict_matching self1 = _strict_matching self2 →
  accepts self1 request entry ↔ accepts self2 request entry.
Proof. unfold accepts, match_entry. by intros ->. Qed.

(** X12. A capture replayed in the order it was recorded, with
    [delete_after_match] on: each request gets the answer recorded with it,
    in strict and in loose mode alike, and the store ends up empty. *)
Theorem X12_replay_in_recording_order self :
  send_all (set_delete_after_match self true)
    (cached_request_of <$> entries self)
  = ((λ entry, Return (answer (cached_request_of entry) entry)) <$> entries self,
     mkAdapter [] (_strict_matching self) true).
Proof.
  destruct self as [es strict del]. unfold set_delete_after_match.
  cbn [entries _strict_matching _delete_after_match]. clear del.
  induction es as [|entry es IH]; [done |].
  cbn [fmap list_fmap send_all].
  rewrite (send_hit cookie_header_to_dict (mkAdapter (entry :: es) strict true)
             (cached_request_of entry) [] entry es eq_refl (Forall_nil_2 _)
             (accepts_own_request _ entry)).
  cbn [_delete_after_match length].
  change (del_entry (mkAdapter (entry :: es) strict true) 0)
    with (mkAdapter es strict true).
  by rewrite IH.
Qed.

(** X13. With [delete_after_match] on, every answer of a session consumes
    an entry of its own: the entries the session started with are the
    entries it leaves together with one consumed entry per answered request,
    each answer being the one recorded with the entry consumed for it and
    that entry accepting the request. The entries left keep their order, a
    request that is not answered raises the no-match exception, and so the
    entries left and the requests answered add up to the entries at the
    start. *)
Theorem X13_one_answer_per_entry self requests :
  let '(outcomes, self') := send_all (set_delete_after_match self true) requests in
  (∃ consumed : list Entry,
     entries self ≡ₚ consumed ++ entries self'
     ∧ Forall2
         (λ '(request, outcome) entry,
            outcome = Return (answer request entry)
            ∧ accepts self request entry)
         (filter (λ served, answered served.2 = true) (zip requests outcomes))
         consumed)
  ∧ entries self' `sublist_of` entries self
  ∧ length outcomes = length requests
  ∧ Forall (λ outcome, answered outcome = false → outcome = Raise NoMatchFound)
      outcomes
  ∧ length (entries self') + length (List.filter answered outcomes)
    = length (entries self).
Proof.
  destruct self as [es strict del]. unfold set_delete_after_match.
  cbn [entries _strict_matching _delete_after_match].
  set (self0 := mkAdapter es strict del).
  assert (∀ store request entry,
            accepts (mkAdapter store strict true) request entry
            → accepts self0 request entry) as Hmode.
  { intros store request entry. by apply accepts_same_mode. }
  clearbody self0. revert es.
  induction requests as [|request requests IH]; intros es.
  - cbn [send_all entries]. split_and!; [| done | done | done | cbn; lia].
    exists []. split; [done |]. cbn. constructor.
  - cbn [send_all].
    destruct (first_accepting cookie_header_to_dict
                (mkAdapter es strict true) request es)
      as [Hnone|(before & entry & after & -> & Hb & He)].
    + rewrite (send_miss cookie_header_to_dict
                 (mkAdapter es strict true) request Hnone).
      specialize (IH es). destruct (send_all _ requests) as [outcomes self'].
      destruct IH as ((consumed & Hperm & Hserved) & Hsub & Hlen & Hraise & Hcount).
      split_and!.
      * exists consumed. split; [done |].
        cbn [zip zip_with]. by rewrite filter_cons_False by done.
      * done.
      * cbn [length]. by rewrite Hlen.
      * by constructor.
      * done.
    + rewrite (send_hit cookie_header_to_dict
                 (mkAdapter (before ++ entry :: after) strict true)
                 request before entry after eq_refl Hb He).
      cbn [_delete_after_match].
      rewrite (del_entry_middle
                 (mkAdapter (before ++ entry :: after) strict true)
                 before entry after eq_refl).
      cbn [_strict_matching _delete_after_match].
      specialize (IH (before ++ after)).
      destruct (send_all _ requests) as [outcomes self'].
      destruct IH as ((consumed & Hperm & Hserved) & Hsub & Hlen & Hraise & Hcount).
      split_and!.
      * exists (entry :: consumed). split.
        -- rewrite <- Permutation_middle. cbn [app]. by rewrite Hperm.
        -- cbn [zip zip_with]. rewrite filter_cons_True by done.
           constructor; [| done]. split; [done |]. by eapply Hmode.
      * etrans; [exact Hsub |]. apply sublist_app; [done |]. by apply sublist_cons.
      * cbn [length]. by rewrite Hlen.
      * constructor; [done | done].
      * cbn [List.filter answered length]. rewrite !length_app in *.
        cbn [length]. lia.
Qed.

(** X14. Switching [strict_matching] off never loses an answer: a request
    that is answered in strict mode is answered in loose mode by the same
    store. *)
Theorem X14_loose_mode_answers_whatever_strict_mode_answers self request :
  _strict_matching self = true →
  answered (fst (fst (send self request))) = true →
  answered (fst (fst (send (set_strict_matching self false) request))) = true.
Proof.
  intros Hstrict Hans.
  set (loose := set_strict_matching self false).
  destruct (first_accepting cookie_header_to_dict loose request (entries loose))
    as [Hnone|(before & entry & after & Hes & Hb & He)].
  - exfalso.
    assert (Forall (λ e, ¬ accepts self request e) (entries self)) as Hstrictly.
    { eapply Forall_impl; [exact Hnone |]. intros e Hloose Hyes. apply Hloose.
      unfold accepts, match_entry in *. cbn [loose set_strict_matching _strict_matching].
      rewrite Hstrict in Hyes. by apply strict_implies_loose. }
    rewrite (send_miss cookie_header_to_dict self request Hstrictly) in Hans.
    discriminate Hans.
  - by rewrite (send_hit cookie_header_to_dict loose request before entry after
                  Hes Hb He).
Qed.

(** X15. With [delete_after_match] off the store is never changed, so a
    session gives each request the answer a single [send] gives it: the
    same entry serves every repetition of a request. *)
Theorem X15_entries_are_reusable_when_not_deleted self requests :
  let reusable := set_delete_after_match self false in
  send_all reusable requests
  = ((λ request, fst (fst (send reusable request))) <$> requests, reusable).
Proof.
  intros reusable.
  assert (∀ request, snd (fst (send reusable request)) = reusable) as Hkeep.
  { intros request.
    destruct (first_accepting cookie_header_to_dict reusable request
                (entries reusable))
      as [Hnone|(before & entry & after & Hes & Hb & He)].
    - by rewrite (send_miss cookie_header_to_dict reusable request Hnone).
    - by rewrite (send_hit cookie_header_to_dict reusable request before entry
                    after Hes Hb He). }
  induction requests as [|request requests IH]; [done |].
  cbn [send_all fmap list_fmap]. specialize (Hkeep request).
  destruct (send reusable request) as [[outcome self'] log].
  cbn [fst snd] in *. subst self'.
  fold (@fmap list _ _ _ (λ request, fst (fst (send reusable request))) requests).
  by rewrite IH.
Qed.

(** X16. The scan stops at the first entry that accepts the request: the
    entries behind it are not examined, so neither the answer nor the log
    depends on them. *)
Theorem X16_entries_behind_the_match_are_not_examined
    self request before entry after after' :
  entries self = before ++ entry :: after →
  Forall (λ e, ¬ accepts self request e) before →
  accepts self request entry →
  let other := mkAdapter (before ++ entry :: after')
                 (_strict_matching self) (_delete_after_match self) in
  fst (fst (send other request)) = fst (fst (send self request))
  ∧ snd (send other request) = snd (send self request).
Proof.
  intros Hes Hb He other.
  rewrite (send_hit cookie_header_to_dict self request before entry after Hes Hb He).
  rewrite (send_hit cookie_header_to_dict other request before entry after'
             eq_refl Hb He).
  done.
Qed.

(** X17. On a miss every entry of the store has been tried, in store order:
    the log is the concatenation of what each comparison logged. *)
Theorem X17_a_miss_has_tried_every_entry self request :
  answered (fst (fst (send self request))) = false →
  snd (send self request)
  = entries self ≫= λ entry, snd (match_entry self request entry).
Proof.
  destruct (first_accepting cookie_header_to_dict self request (entries self))
    as [Hnone|(before & entry & after & Hes & Hb & He)].
  - by rewrite (send_miss cookie_header_to_dict self request Hnone).
  - rewrite (send_hit cookie_header_to_dict self request before entry after
               Hes Hb He). discriminate.
Qed.

End AdapterMore.

(** ** The further properties run on examples *)

Lemma wf_headers_live_ab : wf (headers Example.live_ab).
Proof. apply (bool_decide_unpack _). vm_compute. exact I. Defined.

Lemma wf_headers_cached_ba : wf (headers Example.cached_ba).
Proof. apply (bool_decide_unpack _). vm_compute. exact I. Defined.

Lemma wf_example_cookies_ab : wf Example.cookies_ab.
Proof. apply (bool_decide_unpack _). vm_compute. exact I. Defined.

Lemma wf_example_cookies_ba : wf Example.cookies_ba.
Proof. apply (bool_decide_unpack _). vm_compute. exact I. Defined.

Lemma X2_are_dicts_same_is_item_equality_witness :
  wf Example.cookies_ab ∧ wf Example.cookies_ba
  ∧ (fst (_are_dicts_same Example.cookies_ab Example.cookies_ba 3 "cookies")
     = true
     ↔ Example.cookies_ab ≡ₚ Example.cookies_ba).
Proof.
  split_and!; [exact wf_example_cookies_ab | exact wf_example_cookies_ba |].
  exact (X2_are_dicts_same_is_item_equality _ _ 3 "cookies"
           wf_example_cookies_ab wf_example_cookies_ba).
Defined.

Lemma X4_are_dicts_same_never_misses_a_key_witness :
  Entry_line 3 "a" (Some "1")
  ∈ snd (_are_dicts_same Example.cookie_a Example.no_cookie 3 "cookies")
  ∧ (∀ i key, Entry_line 3 "a" (Some "1") ≠ Entry_line i key None).
Proof.
  assert (Entry_line 3 "a" (Some "1")
          ∈ snd (_are_dicts_same Example.cookie_a Example.no_cookie 3 "cookies"))
    as Hin.
  { apply list_elem_of_In. vm_compute. right. by left. }
  split; [exact Hin |].
  exact (proj1 (X4_are_dicts_same_never_misses_a_key _ _ 3 "cookies" _ Hin)).
Defined.


Lemma X5_do_keys_match_compares_key_sets_witness :
  wf (headers Example.live_ab) ∧ wf (headers Example.cached_ba)
  ∧ (fst (_do_keys_match (headers Example.live_ab) (headers Example.cached_ba) 3)
     = true
     ↔ keys (headers Example.live_ab) ≡ₚ keys (headers Example.cached_ba)).
Proof.
  split_and!; [exact wf_headers_live_ab | exact wf_headers_cached_ba |].
  exact (proj1 (X5_do_keys_match_compares_key_sets _ _ 3
                  wf_headers_live_ab wf_headers_cached_ba)).
Defined.

Lemma X9_strict_match_implies_loose_match_witness :
  fst (_match_requests Example.codec true Example.live_a
         (cached_request_of Example.entry_a)) = true
  ∧ fst (_match_requests Example.codec false Example.live_a
           (cached_request_of Example.entry_a)) = true.
Proof.
  split; [reflexivity |].
  exact (X9_strict_match_implies_loose_match Example.codec Example.live_a
           (cached_request_of Example.entry_a) eq_refl).
Defined.

Lemma X10_other_method_or_url_is_rejected_silently_witness :
  (method (cached_request_of Example.entry_b) ≠ method Example.live_a
   ∨ url (cached_request_of Example.entry_b) ≠ url Example.live_a)
  ∧ _match_requests Example.codec true Example.live_a
      (cached_request_of Example.entry_b) = (false, []).
Proof.
  assert (url (cached_request_of Example.entry_b) ≠ url Example.live_a) as Hne
    by discriminate.
  split; [by right |].
  exact (X10_other_method_or_url_is_rejected_silently Example.codec true
           Example.live_a (cached_request_of Example.entry_b) (or_intror Hne)).
Defined.

Lemma X11_strict_match_characterised_witness :
  wf (headers Example.live_ab) ∧ wf (headers Example.cached_ba)
  ∧ (fst (_match_requests Example.codec true Example.live_ab Example.cached_ba)
     = true
     ↔ method Example.cached_ba = method Example.live_ab
       ∧ url Example.cached_ba = url Example.live_ab
       ∧ items (headers Example.live_ab) ≡ₚ items (headers Example.cached_ba)
       ∧ (truthy (body Example.cached_ba) = true
          → body Example.cached_ba = body Example.live_ab)).
Proof.
  split_and!; [exact wf_headers_live_ab | exact wf_headers_cached_ba |].
  exact (X11_strict_match_characterised Example.codec
           Example.live_ab Example.cached_ba
           wf_headers_live_ab wf_headers_cached_ba).
Defined.

Lemma X14_loose_mode_answers_whatever_strict_mode_answers_witness :
  _strict_matching Example.capture = true
  ∧ answered (fst (fst (Example.send Example.capture Example.live_a))) = true
  ∧ answered (fst (fst (Example.send
                          (set_strict_matching Example.capture false)
                          Example.live_a))) = true.
Proof.
  split_and!; [reflexivity | reflexivity |].
  exact (X14_loose_mode_answers_whatever_strict_mode_answers Example.codec
           Example.capture Example.live_a eq_refl eq_refl).
Defined.

Lemma X16_entries_behind_the_match_are_not_examined_witness :
  entries Example.capture
  = [Example.entry_b] ++ Example.entry_a :: [Example.entry_a_again]
  ∧ Forall (λ e, ¬ accepts Example.codec Example.capture Example.live_a e)
      [Example.entry_b]
  ∧ accepts Example.codec Example.capture Example.live_a Example.entry_a
  ∧ snd (Example.send (mkAdapter [Example.entry_b; Example.entry_a] true true)
           Example.live_a)
    = snd (Example.send Example.capture Example.live_a).
Proof.
  split_and!; [reflexivity | exact rejects_entry_b | reflexivity |].
  exact (proj2 (X16_entries_behind_the_match_are_not_examined Example.codec
                  Example.capture Example.live_a
                  [Example.entry_b] Example.entry_a [Example.entry_a_again] []
                  eq_refl rejects_entry_b eq_refl)).
Defined.

Lemma X17_a_miss_has_tried_every_entry_witness :
  answered (fst (fst (Example.send Example.only_b Example.live_a))) = false
  ∧ snd (Example.send Example.only_b Example.live_a)
    = entries Example.only_b
      ≫= λ entry, snd (match_entry Example.codec Example.only_b
                         Example.live_a entry).
Proof.
  split; [reflexivity |].
  exact (X17_a_miss_has_tried_every_entry Example.codec Example.only_b
           Example.live_a eq_refl).
Defined.

Lemma X20_header_values_compared_up_to_capitalisation_witness :
  wf (headers Example.live_lowercase) ∧ wf (headers Example.cached_capitalised)
  ∧ (fst (_are_dicts_same (headers Example.live_lowercase)
            (headers Example.cached_capitalised) 3 "headers") = true
     ↔ prod_map lower id <$> items (headers Example.live_lowercase)
       ≡ₚ prod_map lower id <$> items (headers Example.cached_capitalised)).
Proof.
  assert (wf (headers Example.live_lowercase)) as Hl
    by (apply (bool_decide_unpack _); vm_compute; exact I).
  assert (wf (headers Example.cached_capitalised)) as Hc
    by (apply (bool_decide_unpack _); vm_compute; exact I).
  split_and!; [exact Hl | exact Hc |].
  exact (X20_header_values_compared_up_to_capitalisation _ _ 3 "headers" Hl Hc).
Defined.
